(** * kafka-utils: offset reconciliation and replica health

    A shallow embedding of [kafka_utils/util/monitoring.py] and of the two
    helpers exercised by [tests/kafka_check/test_under_replicated.py],
    together with the properties stated about them.

    Conventions.
    - A Python [dict] used as a finite map is a [gmap]; Python equality of
      dicts is extensional, as is Leibniz equality of [gmap]s.  Iterating a
      dict ([six.iteritems], [for k in d]) walks [map_to_list].
    - Python integers are unbounded: partitions, offsets and broker ids
      are [Z].
    - Exceptions are values of [exn]; a computation that may raise returns
      an [outcome].
    - The kafka client and the cluster behind it are a state of an
      arbitrary type [W], threaded through every collaborator call; every
      call is also appended to a call log. *)

From stdpp Require Import gmap strings list fin_maps pretty.
From Stdlib Require Import ZArith Lia.

Local Open Scope string_scope.
Local Open Scope Z_scope.

#[local] Set Warnings "-clear-no-such-hyp".

(** ** Merge primitives (monitoring.py, lines 206-235) *)

Module Merge.

(** One step of the inner loop of [merge_partition_offsets]:
    [prev_offset = output.get(partition, 0)]
    [output[partition] = max(prev_offset, offset)]. *)
Definition merge_step (output : gmap Z Z) (item : Z * Z) : gmap Z Z :=
  let '(partition, offset) := item in
  let prev_offset := default 0 (output !! partition) in
  <[partition := Z.max prev_offset offset]> output.

(** The inner loop over the items of one source, in a given order. *)
Definition merge_items (output : gmap Z Z) (items : list (Z * Z)) : gmap Z Z :=
  foldl merge_step output items.

(** [merge_partition_offsets] (variadic in the source). *)
Definition merge_partition_offsets (partition_offsets : list (gmap Z Z))
  : gmap Z Z :=
  foldl (fun output partition_offset =>
           merge_items output (map_to_list partition_offset))
        ∅ partition_offsets.

(** [merge_offsets_metadata] (variadic in its responses).  The list
    comprehension keeps [response[topic]] for the responses that contain
    the topic. *)
Definition merge_offsets_metadata (topics : list string)
    (offsets_responses : list (gmap string (gmap Z Z)))
  : gmap string (gmap Z Z) :=
  foldl (fun result topic =>
           let partition_offsets :=
             omap (fun response : gmap string (gmap Z Z) => response !! topic)
                  offsets_responses in
           <[topic := merge_partition_offsets partition_offsets]> result)
        ∅ topics.

End Merge.

Import Merge.

(** ** Exceptions, outcomes and collaborator calls *)

(** A dictionary key reported by a [KeyError]. *)
Inductive pykey : Type :=
| KeyStr (s : string)
| KeyInt (z : Z).

(** The exception classes the module names, the [KeyError] a failed
    subscript raises, and any other exception a collaborator may raise
    (identified by its class name). *)
Inductive exn : Type :=
| GroupCoordinatorNotAvailableError
| KafkaUnavailableError
| InvalidOffsetStorageError (offset_storage : string)
| KeyError (key : pykey)
| OtherError (name : string).

Inductive outcome (A : Type) : Type :=
| Ok (a : A)
| Raise (e : exn).
Arguments Ok {A} a.
Arguments Raise {A} e.

(** A call made on a collaborator, with its arguments (the client
    argument is the threaded state). *)
Inductive call : Type :=
| LoadMetadataForTopics
| GetCurrentConsumerOffsets (group : string) (topics : list string)
    (raise_on_error : bool) (offset_storage : string)
| GetTopicsWatermarks (topics : list string) (raise_on_error : bool).

(** Modelled from the spec: the watermark entry returned by the
    [get_topics_watermarks] collaborator (its namedtuple is declared in
    [kafka_utils/util/offsets.py], which is not part of the sources); the
    spec gives it a highmark and a lowmark, the only fields read here. *)
Record PartitionOffsets : Type := {
  highmark : Z;
  lowmark : Z
}.

(** The namedtuple [ConsumerPartitionOffsets] (monitoring.py, lines 32-35). *)
Record ConsumerPartitionOffsets : Type := {
  cpo_topic : string;
  cpo_partition : Z;
  cpo_current : Z;
  cpo_highmark : Z;
  cpo_lowmark : Z
}.

(** The external collaborators: [kafka_client.load_metadata_for_topics],
    [kafka_utils.util.offsets.get_current_consumer_offsets] and
    [kafka_utils.util.offsets.get_topics_watermarks].  Each one reads and
    changes the state [W] of the client and cluster and either returns or
    raises. *)
Record Collaborators (W : Type) : Type := {
  load_metadata_for_topics : W -> outcome unit * W;
  get_current_consumer_offsets :
    string -> list string -> bool -> string -> W ->
    outcome (gmap string (gmap Z Z)) * W;
  get_topics_watermarks :
    list string -> bool -> W ->
    outcome (gmap string (gmap Z PartitionOffsets)) * W
}.
Arguments load_metadata_for_topics {W} _ _.
Arguments get_current_consumer_offsets {W} _ _ _ _ _ _.
Arguments get_topics_watermarks {W} _ _ _ _.

(** ** The monad of the embedding: state, call log and exceptions *)

Module Eff.

Definition M (W A : Type) : Type :=
  W * list call -> outcome A * (W * list call).

Definition ret {W A} (a : A) : M W A := fun s => (Ok a, s).

Definition raise {W A} (e : exn) : M W A := fun s => (Raise e, s).

Definition bind {W A B} (m : M W A) (k : A -> M W B) : M W B :=
  fun s =>
    match m s with
    | (Ok a, s') => k a s'
    | (Raise e, s') => (Raise e, s')
    end.

(** [try: m  except ...: handler], the handler deciding by the exception
    whether it catches (and what it does) or raises again. *)
Definition try_except {W A} (m : M W A) (handler : exn -> M W A) : M W A :=
  fun s =>
    match m s with
    | (Ok a, s') => (Ok a, s')
    | (Raise e, s') => handler e s'
    end.

(** A pure computation that may raise, run inside [M]. *)
Definition lift {W A} (r : outcome A) : M W A := fun s => (r, s).

(** Invoke a collaborator: log the call, then let it act on the state. *)
Definition invoke {W A} (c : call) (f : W -> outcome A * W) : M W A :=
  fun '(w, log) => let '(r, w') := f w in (r, (w', (log ++ [c])%list)).

End Eff.

Import Eff.

Notation "x <- m ;; k" := (bind m (fun x => k))
  (at level 100, m at next level, right associativity).

(** Exceptions in pure code: bind and list traversal for [outcome]. *)
Definition rbind {A B} (r : outcome A) (k : A -> outcome B) : outcome B :=
  match r with
  | Ok a => k a
  | Raise e => Raise e
  end.

Fixpoint rmap {A B} (f : A -> outcome B) (l : list A) : outcome (list B) :=
  match l with
  | [] => Ok []
  | x :: l' =>
      rbind (f x) (fun y => rbind (rmap f l') (fun ys => Ok (y :: ys)))
  end.

(** The subscript [d[k]] of a dict: [KeyError] when the key is absent. *)
Definition getitem {K V} `{Countable K} (key_of : K -> pykey)
    (d : gmap K V) (k : K) : outcome V :=
  match d !! k with
  | Some v => Ok v
  | None => Raise (KeyError (key_of k))
  end.

(** ** The assembly loop (monitoring.py, lines 85-96) *)

(** One element of the list comprehension of lines 87-95: the keyword
    arguments are evaluated in order, each subscript raising [KeyError]
    on an absent key. *)
Definition consumer_partition_offsets
    (group_offsets : gmap string (gmap Z Z))
    (watermarks : gmap string (gmap Z PartitionOffsets))
    (topic : string) (partition : Z) : outcome ConsumerPartitionOffsets :=
  rbind (rbind (getitem KeyStr group_offsets topic)
               (fun d => getitem KeyInt d partition)) (fun current =>
  rbind (rbind (getitem KeyStr watermarks topic)
               (fun d => getitem KeyInt d partition)) (fun w_high =>
  rbind (rbind (getitem KeyStr watermarks topic)
               (fun d => getitem KeyInt d partition)) (fun w_low =>
  Ok {| cpo_topic := topic;
        cpo_partition := partition;
        cpo_current := current;
        cpo_highmark := highmark w_high;
        cpo_lowmark := lowmark w_low |}))).

(** The loop of lines 85-96 over the items of [group_offsets]. *)
Fixpoint assemble_items
    (group_offsets : gmap string (gmap Z Z))
    (watermarks : gmap string (gmap Z PartitionOffsets))
    (items : list (string * gmap Z Z))
    (result : gmap string (list ConsumerPartitionOffsets))
  : outcome (gmap string (list ConsumerPartitionOffsets)) :=
  match items with
  | [] => Ok result
  | (topic, partitions) :: items' =>
      rbind (rmap (consumer_partition_offsets group_offsets watermarks topic)
                  (map fst (map_to_list partitions)))
            (fun snapshots =>
               assemble_items group_offsets watermarks items'
                              (<[topic := snapshots]> result))
  end.

(** ** Offset reconciler and assembler (monitoring.py, lines 46-96, 163-203) *)

Section Monitoring.
Context {W : Type} (env : Collaborators W).

Definition call_load_metadata_for_topics : M W unit :=
  invoke LoadMetadataForTopics (load_metadata_for_topics env).

Definition call_get_current_consumer_offsets (group : string)
    (topics : list string) (raise_on_error : bool) (offset_storage : string)
  : M W (gmap string (gmap Z Z)) :=
  invoke (GetCurrentConsumerOffsets group topics raise_on_error offset_storage)
         (get_current_consumer_offsets env group topics raise_on_error
                                       offset_storage).

Definition call_get_topics_watermarks (topics : list string)
    (raise_on_error : bool) : M W (gmap string (gmap Z PartitionOffsets)) :=
  invoke (GetTopicsWatermarks topics raise_on_error)
         (get_topics_watermarks env topics raise_on_error).

(** Lines 72-75 (repeated at 117-120 and 152-155):
    [try: load_metadata_for_topics()]
    [except KafkaUnavailableError: load_metadata_for_topics()]. *)
Definition refresh_metadata : M W unit :=
  try_except call_load_metadata_for_topics
    (fun e =>
       match e with
       | KafkaUnavailableError => call_load_metadata_for_topics
       | _ => raise e
       end).

(** [_get_current_offsets_dual] (lines 185-203); its [raise_on_error]
    argument is not used. *)
Definition _get_current_offsets_dual (group : string) (topics : list string)
    (raise_on_error : bool) : M W (gmap string (gmap Z Z)) :=
  zk_offsets <- call_get_current_consumer_offsets group topics false
                  "zookeeper" ;;
  kafka_offsets <-
    try_except
      (call_get_current_consumer_offsets group topics false "kafka")
      (fun e =>
         match e with
         | GroupCoordinatorNotAvailableError => ret ∅
         | _ => raise e
         end) ;;
  ret (merge_offsets_metadata topics [zk_offsets; kafka_offsets]).

(** [get_current_offsets] (lines 163-182). *)
Definition get_current_offsets (group : string) (topics : list string)
    (raise_on_error : bool) (offset_storage : string)
  : M W (gmap string (gmap Z Z)) :=
  if bool_decide (offset_storage ∈ ["zookeeper"; "kafka"]) then
    call_get_current_consumer_offsets group topics raise_on_error
                                      offset_storage
  else if bool_decide (offset_storage = "dual") then
    _get_current_offsets_dual group topics raise_on_error
  else
    raise (InvalidOffsetStorageError offset_storage).

(** [get_consumer_offsets_metadata] (lines 46-96). *)
Definition get_consumer_offsets_metadata (group : string)
    (topics : list string) (raise_on_error : bool) (offset_storage : string)
  : M W (gmap string (list ConsumerPartitionOffsets)) :=
  _ <- refresh_metadata ;;
  group_offsets <- get_current_offsets group topics raise_on_error
                     offset_storage ;;
  watermarks <- call_get_topics_watermarks topics raise_on_error ;;
  lift (assemble_items group_offsets watermarks (map_to_list group_offsets) ∅).

End Monitoring.


(** ** Replica health evaluator and host list formatter

    [kafka_utils/kafka_check/commands/under_replicated.py] is not part of
    the sources; only its tests are.  The two functions are modelled from
    the specification, on the data the tests build. *)

(** The namedtuple [kafka.common.PartitionMetadata], with the fields the
    tests give it. *)
Record PartitionMetadata : Type := {
  pm_topic : string;
  pm_partition : Z;
  pm_leader : Z;
  replicas : list Z;
  isr : list Z;
  pm_error : Z
}.

(** The connection info of a broker, as in the tests' [BROKER_LIST]. *)
Record BrokerInfo : Type := {
  host : string;
  port : Z
}.

Module UnderReplicated.

(** Append [(topic, partition)] to the list of [broker] in the result. *)
Definition append_pair (topic : string) (partition : Z)
    (result : gmap Z (list (string * Z))) (broker : Z)
  : gmap Z (list (string * Z)) :=
  <[broker := (default [] (result !! broker) ++ [(topic, partition)])%list]>
    result.

(** What one (topic, partition) entry adds: nothing unless
    [|isr| < min_replication_factor]; otherwise the pair is appended for
    every broker of [replicas] that is not in [isr]. *)
Definition process_partition (min_replication_factor : Z) (topic : string)
    (result : gmap Z (list (string * Z))) (entry : Z * PartitionMetadata)
  : gmap Z (list (string * Z)) :=
  let '(partition, metadata) := entry in
  if bool_decide (Z.of_nat (length (isr metadata)) < min_replication_factor)
  then
    foldl (append_pair topic partition) result
          (filter (fun broker => broker ∉ isr metadata) (replicas metadata))
  else result.

(** Modelled from the spec: [_process_topic_partition_metadata] of
    [under_replicated.py], which is missing from the sources.  Section 4.5:
    for every (topic, partition) entry, if [|isr| < minReplicationFactor],
    then for every broker id in [replicas] that is not in [isr], append
    (topic, partition) to that broker's list in the result. *)
Definition _process_topic_partition_metadata
    (topic_partitions_metadata : gmap string (gmap Z PartitionMetadata))
    (min_replication_factor : Z) : gmap Z (list (string * Z)) :=
  foldl (fun result '(topic, partitions) =>
           foldl (process_partition min_replication_factor topic) result
                 (map_to_list partitions))
        ∅ (map_to_list topic_partitions_metadata).

(** A broker rendered as [host:port], the port in decimal. *)
Definition render_broker (broker : BrokerInfo) : string :=
  host broker ++ ":" ++ pretty (port broker).

(** Modelled from the spec: [_prepare_host_list] of [under_replicated.py],
    which is missing from the sources.  Section 4.6: brokers rendered as
    host:port, joined by a comma. *)
Definition _prepare_host_list (brokers : gmap Z BrokerInfo) : string :=
  String.concat "," (map (fun '(_, broker) => render_broker broker)
                         (map_to_list brokers)).

End UnderReplicated.

Import UnderReplicated.

Definition BROKER_LIST_WITH_ONE : gmap Z BrokerInfo :=
  {[ 1000 := {| host := "hostname00"; port := 1234 |} ]}.

(** ** Watermark entry points (monitoring.py, lines 99-160) *)

(** The client as the watermark entry points use it: the collaborators
    above and the attribute [kafka_client.topic_partitions], a dict keyed
    by topic name of which only the keys are read, in iteration order. *)
Record Client (W : Type) : Type := {
  collaborators : Collaborators W;
  topic_partitions : W -> list string
}.
Arguments collaborators {W} _.
Arguments topic_partitions {W} _ _.

(** The loop of lines 122-126: [re.search(topic_regex, topic)] decides,
    topic by topic, what is appended to [topics_to_be_considered].
    [re_search] stands for [re.search] followed by the truth test of its
    result; it raises on a pattern that does not compile. *)
Fixpoint topics_matching (re_search : string -> string -> outcome bool)
    (topic_regex : string) (topics : list string)
    (topics_to_be_considered : list string) : outcome (list string) :=
  match topics with
  | [] => Ok topics_to_be_considered
  | topic :: topics' =>
      rbind (re_search topic_regex topic) (fun found =>
        topics_matching re_search topic_regex topics'
          (if found then (topics_to_be_considered ++ [topic])%list
           else topics_to_be_considered))
  end.

Section Watermarks.
Context {W : Type} (client : Client W).

(** [re.search] of the standard library, and the default value of the
    [raise_on_error] parameter of [get_topics_watermarks], which both
    entry points leave to the callee (its signature is in
    [kafka_utils/util/offsets.py], not part of the sources). *)
Context (re_search : string -> string -> outcome bool).
Context (raise_on_error_default : bool).

(** Reading the attribute [kafka_client.topic_partitions]: no call. *)
Definition read_topic_partitions : M W (list string) :=
  fun s => (Ok (topic_partitions client s.1), s).

(** [get_watermark_for_regex] (lines 99-131). *)
Definition get_watermark_for_regex (topic_regex : string)
  : M W (gmap string (gmap Z PartitionOffsets)) :=
  _ <- refresh_metadata (collaborators client) ;;
  directory <- read_topic_partitions ;;
  topics_to_be_considered <-
    lift (topics_matching re_search topic_regex directory []) ;;
  watermarks <- call_get_topics_watermarks (collaborators client)
                  topics_to_be_considered raise_on_error_default ;;
  ret watermarks.

(** [get_watermark_for_topic] (lines 134-160). *)
Definition get_watermark_for_topic (topic : string)
  : M W (gmap string (gmap Z PartitionOffsets)) :=
  _ <- refresh_metadata (collaborators client) ;;
  watermarks <- call_get_topics_watermarks (collaborators client)
                  [topic] raise_on_error_default ;;
  ret watermarks.

End Watermarks.

(** A scripted client with a fixed topic directory, whose watermark fetch
    answers, for each topic asked, the marks (high 10, low 1) of its
    partition 0. *)
Definition scripted_client (loads : list (outcome unit))
    (directory : list string) : Client nat :=
  {| collaborators :=
       {| load_metadata_for_topics := fun n =>
            (default (Ok tt) (loads !! n), S n);
          get_current_consumer_offsets := fun _ _ _ _ n => (Ok ∅, S n);
          get_topics_watermarks := fun topics _ n =>
            (Ok (list_to_map
                   (map (fun topic : string =>
                           (topic, {[ 0 := {| highmark := 10; lowmark := 1 |} ]}))
                        topics)), S n) |};
     topic_partitions := fun _ => directory |}.

(** A stand-in for [re.search] on patterns of the form prefix: the topic
    is found when it starts with the pattern; the pattern "(" does not
    compile. *)
Definition prefix_search (topic_regex topic : string) : outcome bool :=
  if bool_decide (topic_regex = "(") then Raise (OtherError "re.error")
  else Ok (String.prefix topic_regex topic).

(** ** Scripted collaborators

    A client whose state counts the calls made on it so far.  The
    metadata refresh answers by a script indexed by that count; the offset
    fetch answers [zk] for the zookeeper storage and [kafka] otherwise;
    the watermark fetch answers [wm]. *)
Definition scripted (loads : list (outcome unit))
    (zk kafka : outcome (gmap string (gmap Z Z)))
    (wm : outcome (gmap string (gmap Z PartitionOffsets)))
  : Collaborators nat :=
  {| load_metadata_for_topics := fun n =>
       (default (Ok tt) (loads !! n), S n);
     get_current_consumer_offsets := fun _ _ _ offset_storage n =>
       (if bool_decide (offset_storage = "zookeeper") then zk else kafka, S n);
     get_topics_watermarks := fun _ _ n => (wm, S n) |}.

(** ** The batches of the tests *)

Definition partition_metadata (topic : string) (partition leader : Z)
    (replicas isr : list Z) : PartitionMetadata :=
  {| pm_topic := topic; pm_partition := partition; pm_leader := leader;
     replicas := replicas; isr := isr; pm_error := 0 |}.

(** The single entry of the scenario: topic1, partition 0. *)
Definition TOPIC1_PARTITION0 : gmap string (gmap Z PartitionMetadata) :=
  {[ "topic1" :=
       {[ 0 := partition_metadata "topic1" 0 666 [300; 500; 666] [500; 666] ]} ]}.

(** [METADATA_RESPONSE] of [test__process_topic_partition_metadata]. *)
Definition METADATA_RESPONSE : gmap string (gmap Z PartitionMetadata) :=
  {[ "topic0" :=
       {[ 0 := partition_metadata "topic0" 0 13 [13; 100] [13; 100];
          1 := partition_metadata "topic0" 1 100 [13; 100] [13; 100] ]};
     "topic1" :=
       {[ 0 := partition_metadata "topic1" 0 666 [300; 500; 666] [500; 666];
          1 := partition_metadata "topic1" 1 300 [300; 500; 666]
                                  [300; 500; 666] ]} ]}.

(** [METADATA_RESPONSE] of
    [test__process_topic_partition_metadata_few_for_one_broker]. *)
Definition METADATA_RESPONSE_FEW : gmap string (gmap Z PartitionMetadata) :=
  {[ "topic0" :=
       {[ 0 := partition_metadata "topic0" 0 100 [13; 100] [100];
          1 := partition_metadata "topic0" 1 100 [13; 100] [13; 100] ]};
     "topic1" :=
       {[ 0 := partition_metadata "topic1" 0 666 [13; 500; 666] [13; 500; 666];
          1 := partition_metadata "topic1" 1 666 [13; 500; 666] [666] ]} ]}.

(** [BROKER_LIST] of the tests. *)
Definition BROKER_LIST : gmap Z BrokerInfo :=
  {[ 101 := {| host := "hostname1"; port := 1234 |};
     100 := {| host := "hostname0"; port := 1234 |};
     1001 := {| host := "hostname2"; port := 1234 |} ]}.

(** ** Vocabulary of the properties *)

(** The offsets seen for [partition] across the sources, in source order. *)
Definition seen (sources : list (gmap Z Z)) (partition : Z) : list Z :=
  omap (fun source : gmap Z Z => source !! partition) sources.

(** The maximum offset seen for [partition] across the sources, when it
    was seen at all. *)
Definition max_offset_seen (sources : list (gmap Z Z)) (partition : Z)
  : option Z :=
  match seen sources partition with
  | [] => None
  | offset :: offsets => Some (foldr Z.max offset offsets)
  end.

(** The running value of one partition in the accumulator. *)
Definition acc_step (acc : option Z) (offset : Z) : option Z :=
  Some (Z.max (default 0 acc) offset).

(** The offsets that a list of items carries for [partition]. *)
Definition offsets_of (partition : Z) (items : list (Z * Z)) : list Z :=
  omap (fun item : Z * Z =>
          if decide (item.1 = partition) then Some item.2 else None) items.

(** A snapshot [c] built for the item [(partition, current)] of [topic]:
    the current offset is the item's, the marks are those of the
    watermark entry of that topic and partition. *)
Definition snapshot_of (watermarks : gmap string (gmap Z PartitionOffsets))
    (topic : string) (item : Z * Z) (c : ConsumerPartitionOffsets) : Prop :=
  cpo_topic c = topic
  ∧ cpo_partition c = item.1
  ∧ cpo_current c = item.2
  ∧ ∃ by_partition mark,
      watermarks !! topic = Some by_partition
      ∧ by_partition !! item.1 = Some mark
      ∧ cpo_highmark c = highmark mark
      ∧ cpo_lowmark c = lowmark mark.

(** A partition entry flags a broker: fewer in-sync replicas than the
    threshold, and the broker is a replica that is not in sync. *)
Definition flags (min_replication_factor : Z) (metadata : PartitionMetadata)
    (broker : Z) : Prop :=
  Z.of_nat (length (isr metadata)) < min_replication_factor
  ∧ broker ∈ replicas metadata
  ∧ broker ∉ isr metadata.

(** The (topic, partition) pairs of a batch that flag a broker. *)
Definition under_replicated_at
    (topic_partitions_metadata : gmap string (gmap Z PartitionMetadata))
    (min_replication_factor : Z) (broker : Z) (topic : string) (partition : Z)
  : Prop :=
  ∃ partitions metadata,
    topic_partitions_metadata !! topic = Some partitions
    ∧ partitions !! partition = Some metadata
    ∧ flags min_replication_factor metadata broker.

(** The list of a broker in a result, empty when the broker is absent. *)
Definition pairs_of (result : gmap Z (list (string * Z))) (broker : Z)
  : list (string * Z) :=
  default [] (result !! broker).

(** The outer loop, over any list of (topic, partitions) items. *)
Definition process_items (min_replication_factor : Z)
    (result : gmap Z (list (string * Z)))
    (items : list (string * gmap Z PartitionMetadata))
  : gmap Z (list (string * Z)) :=
  foldl (fun result '(topic, partitions) =>
           foldl (process_partition min_replication_factor topic) result
                 (map_to_list partitions))
        result items.

(** A first entry followed by the others, each one preceded by exactly one
    comma: nothing before the first entry, nothing after the last. *)
Definition comma_separated (first : string) (others : list string) : string :=
  first ++ foldr (fun entry tail => "," ++ entry ++ tail) "" others.

(** The offset of a partition of a topic in a topic-to-partitions map. *)
Definition offset_at (offsets : gmap string (gmap Z Z)) (topic : string)
    (p : Z) : option Z :=
  offsets !! topic ≫= (.!! p).

(** Every (topic, partition) of the offsets has a watermark entry. *)
Definition covered (group_offsets : gmap string (gmap Z Z))
    (watermarks : gmap string (gmap Z PartitionOffsets)) : Prop :=
  ∀ topic partitions partition,
    group_offsets !! topic = Some partitions →
    is_Some (partitions !! partition) →
    ∃ by_partition, watermarks !! topic = Some by_partition
                    ∧ is_Some (by_partition !! partition).

(** A key that a subscript of the watermarks misses: a topic of the
    offsets with some partition and no watermark entry at all, or a
    partition of the offsets that the watermark entry of its topic lacks. *)
Definition missing_key (group_offsets : gmap string (gmap Z Z))
    (watermarks : gmap string (gmap Z PartitionOffsets)) (k : pykey) : Prop :=
  ∃ topic partitions partition,
    group_offsets !! topic = Some partitions
    ∧ is_Some (partitions !! partition)
    ∧ ((k = KeyStr topic ∧ watermarks !! topic = None)
       ∨ (k = KeyInt partition
          ∧ ∃ by_partition, watermarks !! topic = Some by_partition
                            ∧ by_partition !! partition = None)).

(** * Properties *)

(** ** Merge primitives *)

Section MergeFacts.

Lemma merge_items_lookup (items : list (Z * Z)) (output : gmap Z Z) (p : Z) :
  merge_items output items !! p
  = foldl acc_step (output !! p) (offsets_of p items).
Proof.
  revert output. induction items as [|[q o] items IH]; intros output.
  - reflexivity.
  - cbn [merge_items foldl] in *. rewrite IH. unfold offsets_of. cbn.
    destruct (decide (q = p)) as [->|Hne]; cbn.
    + rewrite lookup_insert_eq. reflexivity.
    + rewrite lookup_insert_ne by done. reflexivity.
Qed.

Lemma offsets_of_absent (items : list (Z * Z)) (p : Z) :
  p ∉ items.*1 → offsets_of p items = [].
Proof.
  induction items as [|[q o] items IH]; intros Hp; [done|].
  unfold offsets_of in *. cbn in *.
  apply not_elem_of_cons in Hp as [Hne Hp].
  destruct (decide (q = p)); [congruence|]. auto.
Qed.

Lemma offsets_of_present (items : list (Z * Z)) (p o : Z) :
  NoDup items.*1 → (p, o) ∈ items → offsets_of p items = [o].
Proof.
  induction items as [|[q o'] items IH]; intros Hnd Hin.
  - by apply elem_of_nil in Hin.
  - cbn in Hnd. apply NoDup_cons in Hnd as [Hq Hnd].
    apply elem_of_cons in Hin as [Heq|Hin].
    + inversion Heq; subst q o'. unfold offsets_of. cbn.
      destruct (decide (p = p)); [|done].
      f_equal. by apply offsets_of_absent.
    + assert (q ≠ p) as Hne.
      { intros ->. apply Hq. apply list_elem_of_fmap. by exists (p, o). }
      unfold offsets_of in *. cbn.
      destruct (decide (q = p)); [done|]. auto.
Qed.

(** The items of a dict carry, for each key, exactly its value. *)
Lemma offsets_of_dict (items : list (Z * Z)) (m : gmap Z Z) (p : Z) :
  items ≡ₚ map_to_list m →
  offsets_of p items = option_list (m !! p).
Proof.
  intros Hperm.
  assert (NoDup items.*1) as Hnd.
  { rewrite Hperm. apply NoDup_fst_map_to_list. }
  destruct (m !! p) as [o|] eqn:Hm; cbn.
  - apply offsets_of_present; [done|].
    rewrite Hperm. by apply elem_of_map_to_list.
  - apply offsets_of_absent. rewrite Hperm.
    intros Hin. apply list_elem_of_fmap in Hin as ([q o] & -> & Hin).
    apply elem_of_map_to_list in Hin. cbn in Hm. congruence.
Qed.

(** The order in which the items of a source are visited is immaterial:
    any enumeration of the dict gives the same accumulator. *)
Lemma merge_items_any_order (items : list (Z * Z)) (m output : gmap Z Z) :
  items ≡ₚ map_to_list m →
  merge_items output items = merge_items output (map_to_list m).
Proof.
  intros Hperm. apply map_eq. intros p.
  rewrite !merge_items_lookup.
  by rewrite (offsets_of_dict items m), (offsets_of_dict (map_to_list m) m).
Qed.

Lemma merge_sources_lookup (sources : list (gmap Z Z)) (output : gmap Z Z)
    (p : Z) :
  foldl (fun output partition_offset =>
           merge_items output (map_to_list partition_offset))
        output sources !! p
  = foldl acc_step (output !! p) (seen sources p).
Proof.
  revert output. induction sources as [|m sources IH]; intros output.
  - reflexivity.
  - cbn [foldl]. rewrite IH, merge_items_lookup.
    rewrite (offsets_of_dict _ m) by done.
    unfold seen. cbn. destruct (m !! p); reflexivity.
Qed.

(** The value of a partition in the merge, by the offsets seen for it. *)
Lemma merge_partition_offsets_lookup (sources : list (gmap Z Z)) (p : Z) :
  merge_partition_offsets sources !! p = foldl acc_step None (seen sources p).
Proof.
  unfold merge_partition_offsets. rewrite merge_sources_lookup.
  by rewrite lookup_empty.
Qed.

Lemma foldr_max_base (a b : Z) (offsets : list Z) :
  foldr Z.max (Z.max a b) offsets = Z.max b (foldr Z.max a offsets).
Proof. induction offsets as [|o offsets IH]; cbn; [lia|]. rewrite IH. lia. Qed.

Lemma acc_fold_some (a : Z) (offsets : list Z) :
  foldl acc_step (Some a) offsets = Some (foldr Z.max a offsets).
Proof.
  revert a. induction offsets as [|o offsets IH]; intros a; [done|].
  change (foldl acc_step (Some a) (o :: offsets))
    with (foldl acc_step (Some (Z.max a o)) offsets).
  rewrite IH. cbn [foldr]. f_equal. rewrite foldr_max_base. lia.
Qed.

(** The merged value is the maximum offset seen, floored at the default 0
    of the accumulator; a partition never seen has no value. *)
Lemma merge_partition_offsets_value (sources : list (gmap Z Z)) (p : Z) :
  merge_partition_offsets sources !! p
  = Z.max 0 <$> max_offset_seen sources p.
Proof.
  rewrite merge_partition_offsets_lookup. unfold max_offset_seen.
  destruct (seen sources p) as [|o offsets]; [done|].
  change (foldl acc_step None (o :: offsets))
    with (foldl acc_step (Some (Z.max 0 o)) offsets).
  rewrite acc_fold_some. cbn [fmap option_fmap option_map]. f_equal.
  rewrite (Z.max_comm 0 o). apply foldr_max_base.
Qed.

Lemma foldr_max_in (o : Z) (offsets : list Z) :
  foldr Z.max o offsets ∈ o :: offsets.
Proof.
  induction offsets as [|x offsets IH]; cbn; [apply list_elem_of_here|].
  destruct (Z.max_spec x (foldr Z.max o offsets)) as [[_ ->]|[_ ->]].
  - apply elem_of_cons in IH as [->|IH]; [apply list_elem_of_here|].
    by do 2 apply list_elem_of_further.
  - apply list_elem_of_further, list_elem_of_here.
Qed.

Lemma foldr_max_upper (o x : Z) (offsets : list Z) :
  x ∈ o :: offsets → x ≤ foldr Z.max o offsets.
Proof.
  induction offsets as [|y offsets IH]; cbn; intros Hin.
  - apply elem_of_cons in Hin as [->|Hin]; [lia|by apply elem_of_nil in Hin].
  - apply elem_of_cons in Hin as [->|Hin].
    + specialize (IH (list_elem_of_here _ _)). lia.
    + apply elem_of_cons in Hin as [->|Hin]; [lia|].
      specialize (IH (list_elem_of_further _ _ _ Hin)). lia.
Qed.

Lemma elem_of_seen (sources : list (gmap Z Z)) (p o : Z) :
  o ∈ seen sources p ↔ ∃ source, source ∈ sources ∧ source !! p = Some o.
Proof. unfold seen. apply list_elem_of_omap. Qed.

(** [max_offset_seen] is the greatest of the offsets seen. *)
Lemma max_offset_seen_is_max (sources : list (gmap Z Z)) (p m : Z) :
  max_offset_seen sources p = Some m ↔
  m ∈ seen sources p ∧ ∀ o, o ∈ seen sources p → o ≤ m.
Proof.
  unfold max_offset_seen. destruct (seen sources p) as [|o offsets].
  - split; [done|]. intros [Hin _]. by apply elem_of_nil in Hin.
  - split.
    + intros [= <-]. split; [apply foldr_max_in|].
      intros x Hx. by apply foldr_max_upper.
    + intros [Hin Hup]. f_equal.
      pose proof (foldr_max_in o offsets) as Hin'.
      pose proof (foldr_max_upper o m offsets Hin).
      specialize (Hup _ Hin'). lia.
Qed.

Lemma max_offset_seen_none (sources : list (gmap Z Z)) (p : Z) :
  max_offset_seen sources p = None ↔
  ∀ source, source ∈ sources → source !! p = None.
Proof.
  unfold max_offset_seen. split.
  - destruct (seen sources p) as [|o offsets] eqn:Hs; [|done].
    intros _ source Hin. destruct (source !! p) as [o|] eqn:Hl; [|done].
    assert (o ∈ seen sources p) as Ho by (apply elem_of_seen; eauto).
    rewrite Hs in Ho. by apply elem_of_nil in Ho.
  - intros Hnone. destruct (seen sources p) as [|o offsets] eqn:Hs; [done|].
    assert (o ∈ seen sources p) as Ho by (rewrite Hs; apply list_elem_of_here).
    apply elem_of_seen in Ho as (source & Hin & Hl).
    rewrite (Hnone _ Hin) in Hl. done.
Qed.

(** Two families of sources that show the same offsets for a partition
    have the same maximum there. *)
Lemma max_offset_seen_ext (l l' : list (gmap Z Z)) (p : Z) :
  (∀ o, o ∈ seen l p ↔ o ∈ seen l' p) →
  max_offset_seen l p = max_offset_seen l' p.
Proof.
  intros Hext.
  destruct (max_offset_seen l p) as [m|] eqn:Hl;
    destruct (max_offset_seen l' p) as [m'|] eqn:Hl'; [| | |done].
  - apply max_offset_seen_is_max in Hl as [Hin Hup].
    apply max_offset_seen_is_max in Hl' as [Hin' Hup'].
    f_equal. apply Hext in Hin. apply Hext in Hin'.
    specialize (Hup _ Hin'). specialize (Hup' _ Hin). lia.
  - apply max_offset_seen_is_max in Hl as [Hin _]. apply Hext in Hin.
    unfold max_offset_seen in Hl'.
    destruct (seen l' p); [by apply elem_of_nil in Hin|done].
  - apply max_offset_seen_is_max in Hl' as [Hin _]. apply Hext in Hin.
    unfold max_offset_seen in Hl.
    destruct (seen l p); [by apply elem_of_nil in Hin|done].
Qed.

Lemma merge_partition_offsets_ext (l l' : list (gmap Z Z)) :
  (∀ p o, o ∈ seen l p ↔ o ∈ seen l' p) →
  merge_partition_offsets l = merge_partition_offsets l'.
Proof.
  intros Hext. apply map_eq. intros p.
  rewrite !merge_partition_offsets_value.
  by rewrite (max_offset_seen_ext l l' p).
Qed.

(** The entry of a topic in [merge_offsets_metadata]. *)
Lemma merge_offsets_metadata_lookup (topics : list string)
    (responses : list (gmap string (gmap Z Z))) (topic : string) :
  merge_offsets_metadata topics responses !! topic
  = if decide (topic ∈ topics)
    then Some (merge_partition_offsets
                 (omap (fun response : gmap string (gmap Z Z) =>
                          response !! topic) responses))
    else None.
Proof.
  unfold merge_offsets_metadata.
  set (f := fun (result : gmap string (gmap Z Z)) (topic : string) => _).
  assert (∀ (acc : gmap string (gmap Z Z)),
    foldl f acc topics !! topic
    = if decide (topic ∈ topics)
      then Some (merge_partition_offsets
                   (omap (fun response : gmap string (gmap Z Z) =>
                            response !! topic) responses))
      else acc !! topic) as Hgen.
  { induction topics as [|t topics IH]; intros acc.
    - cbn. destruct (decide (topic ∈ [])) as [Hin|_]; [|done].
      by apply elem_of_nil in Hin.
    - cbn [foldl]. rewrite IH.
      destruct (decide (topic ∈ topics)) as [Hin|Hnin].
      + rewrite decide_True; [done|]. by apply list_elem_of_further.
      + destruct (decide (t = topic)) as [->|Hne].
        * rewrite decide_True by apply list_elem_of_here.
          unfold f. by rewrite lookup_insert_eq.
        * rewrite decide_False.
          -- unfold f. by rewrite lookup_insert_ne.
          -- intros Hin. apply elem_of_cons in Hin as [->|Hin]; done. }
  rewrite Hgen. destruct (decide (topic ∈ topics)); [done|].
  apply lookup_empty.
Qed.

End MergeFacts.

(** Counterexample to C2 as stated, on a negative offset: the only offset seen for
    partition 0 is -5, so the maximum offset seen is -5, but the merged
    value is not -5 (it is 0, the default of the accumulator). *)
Lemma max_seen_is_not_always_merged :
  max_offset_seen [ {[ 0 := -5 ]} ] 0 = Some (-5)
  ∧ merge_partition_offsets [ {[ 0 := -5 ]} ] !! 0 = Some 0
  ∧ merge_partition_offsets [ {[ 0 := -5 ]} ] !! 0
    ≠ max_offset_seen [ {[ 0 := -5 ]} ] 0.
Proof. split; [reflexivity|]. split; [reflexivity|]. discriminate. Qed.

(** C2, amended. For every sequence of sources and every partition, the
    merged map holds, for a partition seen in some source, the larger of 0
    and the maximum offset seen for it, hence the maximum offset seen
    whenever that maximum is not negative; a partition never seen in any
    source has no entry, so reading it with default 0 gives 0. *)
Theorem merge_partition_offsets_floored_max (sources : list (gmap Z Z)) (p : Z) :
  merge_partition_offsets sources !! p = Z.max 0 <$> max_offset_seen sources p
  ∧ (∀ m, max_offset_seen sources p = Some m → 0 ≤ m →
          merge_partition_offsets sources !! p = Some m)
  ∧ ((∀ source, source ∈ sources → source !! p = None) →
     merge_partition_offsets sources !! p = None
     ∧ default 0 (merge_partition_offsets sources !! p) = 0).
Proof.
  pose proof (merge_partition_offsets_value sources p) as Hv.
  split; [done|]. split.
  - intros m Hm Hpos. rewrite Hv, Hm. cbn. f_equal. lia.
  - intros Hnone. apply max_offset_seen_none in Hnone.
    rewrite Hv, Hnone. done.
Qed.

Lemma merge_partition_offsets_floored_max_witness :
  let sources : list (gmap Z Z) := [ {[ 0 := 5 ]}; {[ 0 := 7; 1 := 3 ]} ] in
  max_offset_seen sources 0 = Some 7
  ∧ 0 ≤ 7
  ∧ merge_partition_offsets sources !! 0 = Some 7
  ∧ (∀ source, source ∈ sources → source !! 2 = None)
  ∧ merge_partition_offsets sources !! 2 = None.
Proof.
  intros sources.
  assert (∀ source, source ∈ sources → source !! 2 = None) as Hnone.
  { intros source Hin. subst sources.
    apply elem_of_cons in Hin as [->|Hin]; [reflexivity|].
    apply elem_of_cons in Hin as [->|Hin]; [reflexivity|].
    by apply elem_of_nil in Hin. }
  split; [reflexivity|]. split; [lia|]. split.
  - apply (proj1 (proj2 (merge_partition_offsets_floored_max sources 0)) 7);
      [reflexivity|lia].
  - split; [exact Hnone|].
    exact (proj1 (proj2 (proj2 (merge_partition_offsets_floored_max sources 2)) Hnone)).
Defined.

(** C6. A topic of the list that no source contains is a key of the
    result of [merge_offsets_metadata], bound to the empty dictionary. *)
Theorem merge_offsets_metadata_absent_topic (topics : list string)
    (responses : list (gmap string (gmap Z Z))) (topic : string) :
  topic ∈ topics →
  (∀ response, response ∈ responses → response !! topic = None) →
  merge_offsets_metadata topics responses !! topic = Some ∅.
Proof.
  intros Hin Habsent.
  rewrite merge_offsets_metadata_lookup, decide_True by done.
  f_equal.
  assert (omap (fun response : gmap string (gmap Z Z) => response !! topic)
               responses = []) as ->; [|reflexivity].
  induction responses as [|r responses IH]; [done|].
  cbn. rewrite (Habsent r) by apply list_elem_of_here.
  apply IH. intros r' Hr'. apply Habsent. by apply list_elem_of_further.
Qed.

Lemma merge_offsets_metadata_absent_topic_witness :
  "b" ∈ ["a"; "b"]
  ∧ merge_offsets_metadata ["a"; "b"] [ {[ "a" := {[ 0 := 5 ]} ]}; ∅ ] !! "b"
    = Some ∅.
Proof.
  assert ("b" ∈ ["a"; "b"]) as Hin
    by apply list_elem_of_further, list_elem_of_here.
  split; [exact Hin|].
  apply (merge_offsets_metadata_absent_topic _ _ _ Hin).
  intros r Hr.
  apply elem_of_cons in Hr as [->|Hr]; [reflexivity|].
  apply elem_of_cons in Hr as [->|Hr]; [reflexivity|].
  by apply elem_of_nil in Hr.
Defined.

(** C8. [merge_partition_offsets] does not depend on the order of its
    sources (any permutation gives the same map), is associative (merging
    the merge of two sources with a third is merging the first with the
    merge of the other two, and both are the merge of the three), and
    ignores a repeated source (adding again a source already in the
    sequence changes nothing). *)
Theorem merge_partition_offsets_algebra
    (l l' l1 l2 : list (gmap Z Z)) (a b c x : gmap Z Z) :
  (l ≡ₚ l' → merge_partition_offsets l = merge_partition_offsets l')
  ∧ (merge_partition_offsets [merge_partition_offsets [a; b]; c]
     = merge_partition_offsets [a; merge_partition_offsets [b; c]]
     ∧ merge_partition_offsets [merge_partition_offsets [a; b]; c]
       = merge_partition_offsets [a; b; c])
  ∧ (x ∈ (l1 ++ l2)%list →
     merge_partition_offsets (l1 ++ x :: l2)%list
     = merge_partition_offsets (l1 ++ l2)%list).
Proof.
  split; [|split].
  - intros Hperm. apply merge_partition_offsets_ext. intros p o.
    rewrite !elem_of_seen. by setoid_rewrite Hperm.
  - split; apply map_eq; intros p;
      rewrite !merge_partition_offsets_lookup; unfold seen;
      cbn [omap list_omap];
      rewrite !merge_partition_offsets_lookup; unfold seen;
      cbn [omap list_omap];
      destruct (a !! p), (b !! p), (c !! p); cbn;
      unfold acc_step; cbn; f_equal; lia.
  - intros Hin. apply merge_partition_offsets_ext. intros p o.
    rewrite !elem_of_seen. split.
    + intros (s & Hs & Hl). exists s. split; [|done].
      apply elem_of_app in Hs as [Hs|Hs].
      * apply elem_of_app. by left.
      * apply elem_of_cons in Hs as [->|Hs]; [done|].
        apply elem_of_app. by right.
    + intros (s & Hs & Hl). exists s. split; [|done].
      apply elem_of_app in Hs as [Hs|Hs]; apply elem_of_app;
        [by left|right; by apply list_elem_of_further].
Qed.

Lemma merge_partition_offsets_algebra_witness :
  let a : gmap Z Z := {[ 0 := 5; 1 := -2 ]} in
  let b : gmap Z Z := {[ 0 := 7 ]} in
  [a; b] ≡ₚ [b; a]
  ∧ merge_partition_offsets [a; b] = merge_partition_offsets [b; a]
  ∧ a ∈ ([b] ++ [a])%list
  ∧ merge_partition_offsets ([b] ++ a :: [a])%list
    = merge_partition_offsets ([b] ++ [a])%list.
Proof.
  intros a b.
  assert ([a; b] ≡ₚ [b; a]) as Hperm by apply perm_swap.
  assert (a ∈ ([b] ++ [a])%list) as Hin
    by apply list_elem_of_further, list_elem_of_here.
  destruct (merge_partition_offsets_algebra [a; b] [b; a] [b] [a] a b a a)
    as (Hcomm & _ & Hidem).
  split; [exact Hperm|]. split; [exact (Hcomm Hperm)|].
  split; [exact Hin|]. exact (Hidem Hin).
Defined.

(** ** Collaborator calls: what a run does to the state and the log *)

Section RunFacts.
Context {W : Type} (env : Collaborators W).

Lemma invoke_run {A} (c : call) (f : W → outcome A * W) (w w' : W)
    (log : list call) (r : outcome A) :
  f w = (r, w') → invoke c f (w, log) = (r, (w', (log ++ [c])%list)).
Proof. intros Hf. unfold invoke. by rewrite Hf. Qed.

Lemma fetch_run (group : string) (topics : list string) (roe : bool)
    (storage : string) (w w' : W) (log : list call)
    (r : outcome (gmap string (gmap Z Z))) :
  get_current_consumer_offsets env group topics roe storage w = (r, w') →
  call_get_current_consumer_offsets env group topics roe storage (w, log)
  = (r, (w', (log ++ [GetCurrentConsumerOffsets group topics roe storage])%list)).
Proof. apply invoke_run. Qed.

Lemma load_run (w w' : W) (log : list call) (r : outcome unit) :
  load_metadata_for_topics env w = (r, w') →
  call_load_metadata_for_topics env (w, log)
  = (r, (w', (log ++ [LoadMetadataForTopics])%list)).
Proof. apply invoke_run. Qed.

Lemma watermarks_run (topics : list string) (roe : bool) (w w' : W)
    (log : list call) (r : outcome (gmap string (gmap Z PartitionOffsets))) :
  get_topics_watermarks env topics roe w = (r, w') →
  call_get_topics_watermarks env topics roe (w, log)
  = (r, (w', (log ++ [GetTopicsWatermarks topics roe])%list)).
Proof. apply invoke_run. Qed.

(** The run of the dual-mode reconciliation, by the outcomes of its two
    fetches. *)
Lemma dual_run_zk_raises (group : string) (topics : list string)
    (roe : bool) (w w1 : W) (log : list call) (e : exn) :
  get_current_consumer_offsets env group topics false "zookeeper" w
  = (Raise e, w1) →
  _get_current_offsets_dual env group topics roe (w, log)
  = (Raise e,
     (w1, (log ++ [GetCurrentConsumerOffsets group topics false "zookeeper"])%list)).
Proof.
  intros Hzk. unfold _get_current_offsets_dual, bind.
  by rewrite (fetch_run _ _ _ _ _ _ _ _ Hzk).
Qed.

Lemma dual_run_zk_ok (group : string) (topics : list string)
    (roe : bool) (w w1 w2 : W) (log : list call)
    (zk : gmap string (gmap Z Z)) (rk : outcome (gmap string (gmap Z Z))) :
  get_current_consumer_offsets env group topics false "zookeeper" w
  = (Ok zk, w1) →
  get_current_consumer_offsets env group topics false "kafka" w1
  = (rk, w2) →
  _get_current_offsets_dual env group topics roe (w, log)
  = (match rk with
     | Ok kafka => Ok (merge_offsets_metadata topics [zk; kafka])
     | Raise GroupCoordinatorNotAvailableError =>
         Ok (merge_offsets_metadata topics [zk; ∅])
     | Raise e => Raise e
     end,
     (w2, (log ++ [GetCurrentConsumerOffsets group topics false "zookeeper";
                   GetCurrentConsumerOffsets group topics false "kafka"])%list)).
Proof.
  intros Hzk Hk. unfold _get_current_offsets_dual, bind, try_except.
  rewrite (fetch_run _ _ _ _ _ _ _ _ Hzk).
  rewrite (fetch_run _ _ _ _ _ _ _ _ Hk).
  rewrite <- app_assoc. cbn [app].
  destruct rk as [kafka|[]]; reflexivity.
Qed.

End RunFacts.

(** ** Offset reconciler *)

(** C1. [get_current_offsets] with the storage mode "dual" calls the
    zookeeper-backed fetch and then the kafka-native fetch, both with
    [raise_on_error = False] whatever the caller passed.  A failure of the
    zookeeper fetch propagates (and the kafka fetch is not attempted).
    The kafka result is replaced by the empty mapping exactly when that
    fetch raises [GroupCoordinatorNotAvailableError]; any other failure
    propagates.  Otherwise the result is [merge_offsets_metadata] of the
    two results over the given topics.  For a requested topic where
    zookeeper yields [{0: 5}], the merged offset of partition 0 is 7 when
    kafka yields [{0: 7}] and 5 when the kafka fetch fails with
    coordinator not available. *)
Theorem dual_mode_reconciliation {W : Type} (env : Collaborators W)
    (group : string) (topics : list string) (raise_on_error : bool)
    (w w1 w2 : W) (log : list call)
    (rz rk : outcome (gmap string (gmap Z Z))) :
  get_current_consumer_offsets env group topics false "zookeeper" w = (rz, w1) →
  get_current_consumer_offsets env group topics false "kafka" w1 = (rk, w2) →
  let run :=
    get_current_offsets env group topics raise_on_error "dual" (w, log) in
  let zk_call := GetCurrentConsumerOffsets group topics false "zookeeper" in
  let kafka_call := GetCurrentConsumerOffsets group topics false "kafka" in
  (∀ e, rz = Raise e → run = (Raise e, (w1, (log ++ [zk_call])%list)))
  ∧ (∀ zk, rz = Ok zk →
       run.2 = (w2, (log ++ [zk_call; kafka_call])%list)
       ∧ (∀ kafka, rk = Ok kafka →
            run.1 = Ok (merge_offsets_metadata topics [zk; kafka]))
       ∧ (rk = Raise GroupCoordinatorNotAvailableError →
            run.1 = Ok (merge_offsets_metadata topics [zk; ∅]))
       ∧ (∀ e, rk = Raise e → e ≠ GroupCoordinatorNotAvailableError →
            run.1 = Raise e)
       ∧ (∀ topic, topic ∈ topics → zk !! topic = Some {[ 0 := 5 ]} →
            (∀ kafka, rk = Ok kafka → kafka !! topic = Some {[ 0 := 7 ]} →
               ∃ merged, run.1 = Ok merged
                         ∧ merged !! topic ≫= (.!! 0) = Some 7)
            ∧ (rk = Raise GroupCoordinatorNotAvailableError →
               ∃ merged, run.1 = Ok merged
                         ∧ merged !! topic ≫= (.!! 0) = Some 5))).
Proof.
  intros Hzk Hk run zk_call kafka_call.
  assert (run = _get_current_offsets_dual env group topics raise_on_error
                  (w, log)) as Hrun.
  { subst run. unfold get_current_offsets.
    rewrite bool_decide_eq_false_2.
    - by rewrite bool_decide_eq_true_2.
    - rewrite !elem_of_cons, elem_of_nil. intros [?|[?|[]]]; discriminate. }
  rewrite Hrun. clear Hrun run. split.
  - intros e ->. by apply dual_run_zk_raises.
  - intros zk ->.
    rewrite (dual_run_zk_ok env _ _ _ _ _ _ _ _ _ Hzk Hk). cbn [fst snd].
    split; [done|]. split; [by intros kafka ->|].
    split; [by intros ->|]. split.
    { intros e -> Hne. by destruct e. }
    intros topic Hin Hz. split.
    + intros kafka -> Hkt. eexists. split; [done|].
      rewrite merge_offsets_metadata_lookup, decide_True by done.
      cbn. rewrite Hz, Hkt. reflexivity.
    + intros ->. eexists. split; [done|].
      rewrite merge_offsets_metadata_lookup, decide_True by done.
      cbn. rewrite Hz, lookup_empty. reflexivity.
Qed.

Lemma dual_mode_reconciliation_witness :
  let env := scripted [] (Ok {[ "t" := {[ 0 := 5 ]} ]})
                         (Ok {[ "t" := {[ 0 := 7 ]} ]}) (Ok ∅) in
  get_current_consumer_offsets env "g" ["t"] false "zookeeper" 0%nat
  = (Ok {[ "t" := {[ 0 := 5 ]} ]}, 1%nat)
  ∧ get_current_consumer_offsets env "g" ["t"] false "kafka" 1%nat
    = (Ok {[ "t" := {[ 0 := 7 ]} ]}, 2%nat)
  ∧ (get_current_offsets env "g" ["t"] true "dual" (0%nat, [])).2
    = (2%nat, [GetCurrentConsumerOffsets "g" ["t"] false "zookeeper";
               GetCurrentConsumerOffsets "g" ["t"] false "kafka"])
  ∧ ∃ merged, (get_current_offsets env "g" ["t"] true "dual" (0%nat, [])).1
              = Ok merged
              ∧ merged !! "t" ≫= (.!! 0) = Some 7.
Proof.
  intros env. split; [reflexivity|]. split; [reflexivity|].
  destruct (dual_mode_reconciliation env "g" ["t"] true 0%nat 1%nat 2%nat []
              (Ok {[ "t" := {[ 0 := 5 ]} ]}) (Ok {[ "t" := {[ 0 := 7 ]} ]})
              eq_refl eq_refl) as [_ Hok].
  destruct (Hok _ eq_refl) as (Hstate & _ & _ & _ & Hex).
  split; [exact Hstate|].
  destruct (Hex "t") as [H7 _].
  - apply list_elem_of_here.
  - reflexivity.
  - exact (H7 _ eq_refl eq_refl).
Defined.

(** C4. A storage mode other than "zookeeper", "kafka" and "dual" makes
    [get_current_offsets] raise [InvalidOffsetStorageError] carrying that
    value, with the state and the call log untouched: no collaborator was
    invoked.  For "zookeeper" and "kafka" it makes exactly one call, the
    single-backend fetch with the caller's arguments and that mode, and its
    outcome is the outcome of that call, result or failure alike; so it
    raises [InvalidOffsetStorageError] only if the collaborator did. *)
Theorem get_current_offsets_dispatch {W : Type} (env : Collaborators W)
    (group : string) (topics : list string) (raise_on_error : bool)
    (offset_storage : string) (w : W) (log : list call) :
  let run :=
    get_current_offsets env group topics raise_on_error offset_storage (w, log) in
  (offset_storage ∉ ["zookeeper"; "kafka"; "dual"] →
     run = (Raise (InvalidOffsetStorageError offset_storage), (w, log)))
  ∧ (offset_storage ∈ ["zookeeper"; "kafka"] →
     ∀ r w',
       get_current_consumer_offsets env group topics raise_on_error
                                    offset_storage w = (r, w') →
       run = (r, (w', (log ++ [GetCurrentConsumerOffsets group topics
                                 raise_on_error offset_storage])%list))
       ∧ (∀ v, r ≠ Raise (InvalidOffsetStorageError v) →
               run.1 ≠ Raise (InvalidOffsetStorageError v))).
Proof.
  intros run. subst run. unfold get_current_offsets. split.
  - intros Hout.
    rewrite bool_decide_eq_false_2.
    + rewrite bool_decide_eq_false_2; [done|].
      intros ->. apply Hout. do 2 apply list_elem_of_further.
      apply list_elem_of_here.
    + intros Hin. apply Hout.
      apply elem_of_cons in Hin as [->|Hin]; [apply list_elem_of_here|].
      apply elem_of_cons in Hin as [->|Hin].
      * apply list_elem_of_further, list_elem_of_here.
      * by apply elem_of_nil in Hin.
  - intros Hin r w' Hcall. rewrite bool_decide_eq_true_2 by done.
    rewrite (fetch_run env _ _ _ _ _ _ _ _ Hcall). split; [done|].
    intros v Hne. exact Hne.
Qed.

Lemma get_current_offsets_dispatch_witness :
  let env := scripted [] (Ok {[ "t" := {[ 0 := 5 ]} ]})
                         (Raise (OtherError "ConnectionError")) (Ok ∅) in
  get_current_offsets env "g" ["t"] true "zk" (0%nat, [])
  = (Raise (InvalidOffsetStorageError "zk"), (0%nat, []))
  ∧ get_current_offsets env "g" ["t"] true "kafka" (0%nat, [])
    = (Raise (OtherError "ConnectionError"),
       (1%nat, [GetCurrentConsumerOffsets "g" ["t"] true "kafka"])).
Proof.
  intros env.
  destruct (get_current_offsets_dispatch env "g" ["t"] true "zk" 0%nat [])
    as [Hbad _].
  destruct (get_current_offsets_dispatch env "g" ["t"] true "kafka" 0%nat [])
    as [_ Hgood].
  split.
  - apply Hbad. vm_compute. intros Hin. inversion Hin; subst.
    match goal with H : _ ∈ _ |- _ => inversion H; subst end.
    match goal with H : _ ∈ [_] |- _ => inversion H; subst end.
    match goal with H : _ ∈ [] |- _ => inversion H end.
  - refine (proj1 (Hgood _ (Raise (OtherError "ConnectionError")) 1%nat eq_refl)).
    apply list_elem_of_further, list_elem_of_here.
Defined.

(** ** Metadata refresher *)

(** C5. The refresher calls [load_metadata_for_topics] once or twice.  It
    calls a second time exactly when the first call raised
    [KafkaUnavailableError], and then its outcome is the outcome of the
    second call, failure included; any other outcome of the first call,
    failure included, is its outcome with no retry.  A failure of the
    refresher is the failure of [get_consumer_offsets_metadata], which
    makes no further call. *)
Theorem refresh_metadata_retry {W : Type} (env : Collaborators W)
    (w w1 w2 : W) (log : list call) (r1 r2 : outcome unit) :
  load_metadata_for_topics env w = (r1, w1) →
  load_metadata_for_topics env w1 = (r2, w2) →
  let run := refresh_metadata env (w, log) in
  (r1 = Raise KafkaUnavailableError →
     run = (r2, (w2, (log ++ [LoadMetadataForTopics; LoadMetadataForTopics])%list)))
  ∧ (r1 ≠ Raise KafkaUnavailableError →
     run = (r1, (w1, (log ++ [LoadMetadataForTopics])%list)))
  ∧ (∃ n, (1 ≤ n ≤ 2)%nat
          ∧ run.2.2 = (log ++ replicate n LoadMetadataForTopics)%list
          ∧ (n = 2%nat ↔ r1 = Raise KafkaUnavailableError))
  ∧ (∀ e group topics raise_on_error offset_storage,
       run.1 = Raise e →
       get_consumer_offsets_metadata env group topics raise_on_error
                                     offset_storage (w, log)
       = (Raise e, run.2)).
Proof.
  intros H1 H2 run.
  assert (r1 = Raise KafkaUnavailableError →
          run = (r2, (w2, (log ++ [LoadMetadataForTopics;
                                   LoadMetadataForTopics])%list))) as Hretry.
  { intros ->. subst run. unfold refresh_metadata, try_except.
    rewrite (load_run env _ _ _ _ H1). rewrite (load_run env _ _ _ _ H2).
    by rewrite <- app_assoc. }
  assert (r1 ≠ Raise KafkaUnavailableError →
          run = (r1, (w1, (log ++ [LoadMetadataForTopics])%list))) as Honce.
  { intros Hne. subst run. unfold refresh_metadata, try_except.
    rewrite (load_run env _ _ _ _ H1).
    destruct r1 as [[]|[]]; try reflexivity. by destruct Hne. }
  split; [done|]. split; [done|]. split.
  - assert (r1 = Raise KafkaUnavailableError
            ∨ r1 ≠ Raise KafkaUnavailableError) as [Heq|Hne].
    { destruct r1 as [[]|[]]; (by left) || (by right). }
    + exists 2%nat. rewrite (Hretry Heq). cbn. split; [lia|]. done.
    + exists 1%nat. rewrite (Honce Hne). cbn. split; [lia|].
      split; [done|]. split; [lia|done].
  - intros e group topics roe storage Hrun.
    unfold get_consumer_offsets_metadata, bind. fold run.
    destruct run as [[[]|e'] s']; cbn in *; congruence.
Qed.

Lemma refresh_metadata_retry_witness :
  let env := scripted [Raise KafkaUnavailableError; Ok tt] (Ok ∅) (Ok ∅) (Ok ∅) in
  load_metadata_for_topics env 0%nat = (Raise KafkaUnavailableError, 1%nat)
  ∧ load_metadata_for_topics env 1%nat = (Ok tt, 2%nat)
  ∧ refresh_metadata env (0%nat, [])
    = (Ok tt, (2%nat, [LoadMetadataForTopics; LoadMetadataForTopics])).
Proof.
  intros env. split; [reflexivity|]. split; [reflexivity|].
  exact (proj1 (refresh_metadata_retry env 0%nat 1%nat 2%nat []
                  (Raise KafkaUnavailableError) (Ok tt) eq_refl eq_refl)
               eq_refl).
Defined.

(** ** Merged offsets are never negative *)

(** C10. Every value of the map returned by [merge_partition_offsets] is
    at least 0; a partition seen only with negative offsets is reported
    as 0.  Hence every offset in the result of [merge_offsets_metadata],
    and every offset returned by the dual-mode reconciliation, is at
    least 0. *)
Theorem merged_offsets_nonnegative {W : Type} (env : Collaborators W)
    (sources : list (gmap Z Z)) (topics : list string)
    (responses : list (gmap string (gmap Z Z)))
    (group : string) (raise_on_error : bool) (s s' : W * list call)
    (merged : gmap string (gmap Z Z)) (topic : string)
    (partitions : gmap Z Z) (p v : Z) :
  (merge_partition_offsets sources !! p = Some v → 0 ≤ v)
  ∧ ((∃ source, source ∈ sources ∧ is_Some (source !! p)) →
     (∀ source o, source ∈ sources → source !! p = Some o → o < 0) →
     merge_partition_offsets sources !! p = Some 0)
  ∧ (merge_offsets_metadata topics responses !! topic = Some partitions →
     partitions !! p = Some v → 0 ≤ v)
  ∧ (_get_current_offsets_dual env group topics raise_on_error s
     = (Ok merged, s') →
     merged !! topic = Some partitions → partitions !! p = Some v → 0 ≤ v).
Proof.
  assert (∀ l q u, merge_partition_offsets l !! q = Some u → 0 ≤ u) as Hnn.
  { intros l q u. rewrite merge_partition_offsets_value.
    destruct (max_offset_seen l q); cbn; [|done]. intros [= <-]. lia. }
  assert (∀ ts rs t ps q u,
    merge_offsets_metadata ts rs !! t = Some ps → ps !! q = Some u → 0 ≤ u)
    as Hmom.
  { intros ts rs t ps q u. rewrite merge_offsets_metadata_lookup.
    destruct (decide (t ∈ ts)); [|done]. intros [= <-]. apply Hnn. }
  split; [apply Hnn|]. split; [|split; [apply Hmom|]].
  - intros (source & Hin & [o Ho]) Hneg.
    rewrite merge_partition_offsets_value.
    destruct (max_offset_seen sources p) as [m|] eqn:Hm.
    + apply max_offset_seen_is_max in Hm as [Hin' _].
      apply elem_of_seen in Hin' as (s0 & Hs0 & Hl).
      specialize (Hneg _ _ Hs0 Hl). cbn. f_equal. lia.
    + rewrite max_offset_seen_none in Hm. rewrite (Hm _ Hin) in Ho. done.
  - destruct s as [w log].
    destruct (get_current_consumer_offsets env group topics false "zookeeper" w)
      as [[zk|e] w1] eqn:Hzk.
    + destruct (get_current_consumer_offsets env group topics false "kafka" w1)
        as [rk w2] eqn:Hk.
      rewrite (dual_run_zk_ok env _ _ raise_on_error _ _ _ log _ _ Hzk Hk).
      destruct rk as [kafka|[]]; intros [= <- <-]; apply Hmom.
    + rewrite (dual_run_zk_raises env _ _ raise_on_error _ _ log _ Hzk).
      discriminate.
Qed.

Lemma merged_offsets_nonnegative_witness :
  let env := scripted [] (Ok {[ "t" := {[ 0 := -3 ]} ]})
                         (Ok {[ "t" := {[ 0 := -1 ]} ]}) (Ok ∅) in
  let sources : list (gmap Z Z) := [ {[ 0 := -3 ]}; {[ 0 := -1 ]} ] in
  merge_partition_offsets sources !! 0 = Some 0
  ∧ 0 ≤ 0
  ∧ (_get_current_offsets_dual env "g" ["t"] true (0%nat, [])).1
    = Ok {[ "t" := {[ 0 := 0 ]} ]}.
Proof.
  intros env sources.
  pose proof (merged_offsets_nonnegative env sources ["t"]
                [ {[ "t" := {[ 0 := -3 ]} ]}; {[ "t" := {[ 0 := -1 ]} ]} ]
                "g" true (0%nat, [])
                (2%nat, [GetCurrentConsumerOffsets "g" ["t"] false "zookeeper";
                         GetCurrentConsumerOffsets "g" ["t"] false "kafka"])
                {[ "t" := {[ 0 := 0 ]} ]} "t" {[ 0 := 0 ]} 0 0)
    as (Hnn & Hzero & Hmom & Hdual).
  split; [|split].
  - apply Hzero.
    + exists {[ 0 := -3 ]}. split; [apply list_elem_of_here|by eexists].
    + intros source o Hin Ho. subst sources.
      apply elem_of_cons in Hin as [->|Hin].
      { apply lookup_singleton_Some in Ho as [_ <-]. lia. }
      apply elem_of_cons in Hin as [->|Hin].
      { apply lookup_singleton_Some in Ho as [_ <-]. lia. }
      by apply elem_of_nil in Hin.
  - apply Hdual; reflexivity.
  - reflexivity.
Defined.

(** ** Offsets-and-watermarks assembler *)

Section AssembleFacts.
Variable group_offsets : gmap string (gmap Z Z).
Variable watermarks : gmap string (gmap Z PartitionOffsets).

Hypothesis covered : ∀ topic partitions partition,
  group_offsets !! topic = Some partitions →
  is_Some (partitions !! partition) →
  ∃ by_partition, watermarks !! topic = Some by_partition
                  ∧ is_Some (by_partition !! partition).

Lemma snapshot_ok (topic : string) (partitions : gmap Z Z)
    (partition current : Z) :
  group_offsets !! topic = Some partitions →
  partitions !! partition = Some current →
  ∃ c, consumer_partition_offsets group_offsets watermarks topic partition
       = Ok c
       ∧ snapshot_of watermarks topic (partition, current) c.
Proof.
  intros Ht Hp.
  destruct (covered topic partitions partition Ht) as (wt & Hwt & [m Hm]);
    [by eexists|].
  unfold consumer_partition_offsets, getitem.
  rewrite Ht. cbn. rewrite Hp. cbn. rewrite Hwt. cbn. rewrite Hm. cbn.
  eexists. split; [reflexivity|].
  repeat split; cbn. by exists wt, m.
Qed.

Lemma snapshots_ok (topic : string) (partitions : gmap Z Z)
    (items : list (Z * Z)) :
  group_offsets !! topic = Some partitions →
  (∀ item, item ∈ items → partitions !! item.1 = Some item.2) →
  ∃ l, rmap (consumer_partition_offsets group_offsets watermarks topic)
            (map fst items) = Ok l
       ∧ Forall2 (snapshot_of watermarks topic) items l.
Proof.
  intros Ht. induction items as [|[p cur] items IH]; intros Hitems.
  - exists []. split; [reflexivity|constructor].
  - destruct (snapshot_ok topic partitions p cur Ht) as (c & Hc & Hsnap).
    { apply (Hitems (p, cur)), list_elem_of_here. }
    destruct IH as (l & Hl & Hall).
    { intros item Hin. apply Hitems. by apply list_elem_of_further. }
    exists (c :: l). split.
    + change (map fst ((p, cur) :: items)) with (p :: map fst items).
      cbn [rmap]. rewrite Hc. cbn [rbind]. rewrite Hl. reflexivity.
    + by constructor.
Qed.

Lemma assemble_items_ok (items : list (string * gmap Z Z))
    (acc : gmap string (list ConsumerPartitionOffsets)) :
  NoDup items.*1 →
  (∀ topic partitions, (topic, partitions) ∈ items →
                       group_offsets !! topic = Some partitions) →
  ∃ result,
    assemble_items group_offsets watermarks items acc = Ok result
    ∧ (∀ topic, topic ∉ items.*1 → result !! topic = acc !! topic)
    ∧ (∀ topic partitions, (topic, partitions) ∈ items →
         ∃ l, result !! topic = Some l
              ∧ Forall2 (snapshot_of watermarks topic)
                        (map_to_list partitions) l).
Proof.
  revert acc. induction items as [|[t ps] items IH]; intros acc Hnd Hitems.
  - exists acc. split; [reflexivity|]. split; [done|].
    intros topic partitions Hin. by apply elem_of_nil in Hin.
  - cbn in Hnd. apply NoDup_cons in Hnd as [Ht Hnd].
    destruct (snapshots_ok t ps (map_to_list ps)) as (l0 & Hl0 & Hall0).
    { apply Hitems, list_elem_of_here. }
    { intros [q cur] Hin. by apply elem_of_map_to_list in Hin. }
    destruct (IH (<[t := l0]> acc) Hnd) as (result & Hres & Hout & Hin).
    { intros topic partitions Hin. apply Hitems.
      by apply list_elem_of_further. }
    exists result. split; [|split].
    + cbn [assemble_items]. rewrite Hl0. exact Hres.
    + intros topic Hnotin. cbn in Hnotin.
      apply not_elem_of_cons in Hnotin as [Hne Hnotin].
      rewrite (Hout _ Hnotin). by rewrite lookup_insert_ne.
    + intros topic partitions Hmem.
      apply elem_of_cons in Hmem as [Heq|Hmem].
      * inversion Heq; subst topic partitions. exists l0.
        rewrite (Hout _ Ht). by rewrite lookup_insert_eq.
      * by apply Hin.
Qed.

(** The whole loop of lines 85-96. *)
Lemma assemble_ok :
  ∃ result,
    assemble_items group_offsets watermarks (map_to_list group_offsets) ∅
    = Ok result
    ∧ dom result = dom group_offsets
    ∧ (∀ topic partitions, group_offsets !! topic = Some partitions →
         ∃ l, result !! topic = Some l
              ∧ Forall2 (snapshot_of watermarks topic)
                        (map_to_list partitions) l).
Proof.
  destruct (assemble_items_ok (map_to_list group_offsets) ∅)
    as (result & Hres & Hout & Hin).
  { apply NoDup_fst_map_to_list. }
  { intros topic partitions Hmem. by apply elem_of_map_to_list in Hmem. }
  exists result. split; [done|]. split.
  - apply set_eq. intros topic. rewrite !elem_of_dom. split.
    + intros Hsome.
      destruct (group_offsets !! topic) as [ps|] eqn:Hg; [by eexists|].
      rewrite Hout, lookup_empty in Hsome; [by destruct Hsome|].
      intros Hmem. apply list_elem_of_fmap in Hmem as ([t ps] & -> & Hmem).
      apply elem_of_map_to_list in Hmem. cbn in Hg. congruence.
    + intros [ps Hg].
      destruct (Hin topic ps) as (l & Hl & _);
        [by apply elem_of_map_to_list|by eexists].
  - intros topic partitions Hg. apply Hin. by apply elem_of_map_to_list.
Qed.

End AssembleFacts.

(** C7. When the metadata refresh, the offset reconciliation and the
    watermark fetch succeed, and every (topic, partition) of the
    reconciled offsets has a watermark entry, [get_consumer_offsets_metadata]
    returns a mapping whose keys are the topics of the reconciled offsets;
    each topic is bound to a list with one snapshot per partition under
    that topic, whose current offset is the reconciled one and whose marks
    are those of the partition's watermark entry. *)
Theorem get_consumer_offsets_metadata_assembles {W : Type}
    (env : Collaborators W) (group : string) (topics : list string)
    (raise_on_error : bool) (offset_storage : string)
    (s s1 s2 s3 : W * list call)
    (group_offsets : gmap string (gmap Z Z))
    (watermarks : gmap string (gmap Z PartitionOffsets)) :
  refresh_metadata env s = (Ok tt, s1) →
  get_current_offsets env group topics raise_on_error offset_storage s1
  = (Ok group_offsets, s2) →
  call_get_topics_watermarks env topics raise_on_error s2
  = (Ok watermarks, s3) →
  (∀ topic partitions partition,
     group_offsets !! topic = Some partitions →
     is_Some (partitions !! partition) →
     ∃ by_partition, watermarks !! topic = Some by_partition
                     ∧ is_Some (by_partition !! partition)) →
  ∃ result,
    get_consumer_offsets_metadata env group topics raise_on_error
                                  offset_storage s = (Ok result, s3)
    ∧ dom result = dom group_offsets
    ∧ (∀ topic partitions, group_offsets !! topic = Some partitions →
         ∃ l, result !! topic = Some l
              ∧ Forall2 (snapshot_of watermarks topic)
                        (map_to_list partitions) l).
Proof.
  intros Hrefresh Hoffsets Hwm Hcov.
  destruct (assemble_ok group_offsets watermarks Hcov)
    as (result & Hres & Hdom & Hsnap).
  exists result. split; [|done].
  unfold get_consumer_offsets_metadata, bind, lift.
  by rewrite Hrefresh, Hoffsets, Hwm, Hres.
Qed.

Lemma get_consumer_offsets_metadata_assembles_witness :
  let offsets : gmap string (gmap Z Z) := {[ "t" := {[ 0 := 5 ]} ]} in
  let marks : gmap string (gmap Z PartitionOffsets) :=
    {[ "t" := {[ 0 := {| highmark := 10; lowmark := 1 |} ]} ]} in
  let env := scripted [] (Ok ∅) (Ok offsets) (Ok marks) in
  ∃ result,
    get_consumer_offsets_metadata env "g" ["t"] true "kafka" (0%nat, [])
    = (Ok result,
       (3%nat, [LoadMetadataForTopics;
                GetCurrentConsumerOffsets "g" ["t"] true "kafka";
                GetTopicsWatermarks ["t"] true]))
    ∧ dom result = dom offsets
    ∧ (∀ topic partitions, offsets !! topic = Some partitions →
         ∃ l, result !! topic = Some l
              ∧ Forall2 (snapshot_of marks topic) (map_to_list partitions) l).
Proof.
  intros offsets marks env.
  apply (get_consumer_offsets_metadata_assembles env "g" ["t"] true "kafka"
           (0%nat, []) (1%nat, [LoadMetadataForTopics])
           (2%nat, [LoadMetadataForTopics;
                    GetCurrentConsumerOffsets "g" ["t"] true "kafka"])).
  - reflexivity.
  - reflexivity.
  - reflexivity.
  - intros topic partitions partition Ht [cur Hp]. subst offsets marks.
    apply lookup_singleton_Some in Ht as [<- <-].
    apply lookup_singleton_Some in Hp as [<- <-].
    eexists. split; [reflexivity|]. by eexists.
Defined.

(** The reference behaviour when a reconciled partition has no watermark
    entry: the subscript fails with a [KeyError] naming the partition. *)
Example get_consumer_offsets_metadata_missing_watermark :
  let env := scripted [] (Ok ∅) (Ok {[ "t" := {[ 0 := 5 ]} ]})
                      (Ok {[ "t" := ∅ ]}) in
  (get_consumer_offsets_metadata env "g" ["t"] true "kafka" (0%nat, [])).1
  = Raise (KeyError (KeyInt 0)).
Proof. reflexivity. Qed.

(** ** Replica health evaluator *)

Section UnderReplicatedFacts.
Variable min_rf : Z.

Lemma pairs_of_append_pair (t : string) (p : Z)
    (result : gmap Z (list (string * Z))) (b b' : Z) (x : string * Z) :
  x ∈ pairs_of (append_pair t p result b) b'
  ↔ x ∈ pairs_of result b' ∨ (b' = b ∧ x = (t, p)).
Proof.
  unfold pairs_of, append_pair.
  destruct (decide (b = b')) as [->|Hne].
  - rewrite lookup_insert_eq. cbn. rewrite elem_of_app, list_elem_of_singleton.
    naive_solver.
  - rewrite lookup_insert_ne by done. naive_solver.
Qed.

Lemma append_pair_nonempty (t : string) (p : Z)
    (result : gmap Z (list (string * Z))) (b : Z) :
  (∀ b', result !! b' ≠ Some []) →
  ∀ b', append_pair t p result b !! b' ≠ Some [].
Proof.
  intros Hne b'. unfold append_pair.
  destruct (decide (b = b')) as [->|Hbb].
  - rewrite lookup_insert_eq. intros [= Heq].
    by apply app_eq_nil in Heq as [_ ?].
  - rewrite lookup_insert_ne by done. apply Hne.
Qed.

Lemma pairs_of_append_all (t : string) (p : Z) (brokers : list Z)
    (result : gmap Z (list (string * Z))) (b' : Z) (x : string * Z) :
  x ∈ pairs_of (foldl (append_pair t p) result brokers) b'
  ↔ x ∈ pairs_of result b' ∨ (b' ∈ brokers ∧ x = (t, p)).
Proof.
  revert result. induction brokers as [|b brokers IH]; intros result.
  - cbn. rewrite elem_of_nil. naive_solver.
  - cbn [foldl]. rewrite IH, pairs_of_append_pair, elem_of_cons.
    naive_solver.
Qed.

Lemma append_all_nonempty (t : string) (p : Z) (brokers : list Z)
    (result : gmap Z (list (string * Z))) :
  (∀ b', result !! b' ≠ Some []) →
  ∀ b', foldl (append_pair t p) result brokers !! b' ≠ Some [].
Proof.
  revert result. induction brokers as [|b brokers IH]; intros result Hne;
    [done|].
  cbn [foldl]. apply IH. by apply append_pair_nonempty.
Qed.

Lemma pairs_of_process_partition (t : string) (entry : Z * PartitionMetadata)
    (result : gmap Z (list (string * Z))) (b' : Z) (x : string * Z) :
  x ∈ pairs_of (process_partition min_rf t result entry) b'
  ↔ x ∈ pairs_of result b' ∨ (x = (t, entry.1) ∧ flags min_rf entry.2 b').
Proof.
  destruct entry as [p m]. unfold process_partition, flags. cbn [fst snd].
  case_bool_decide as Hlt.
  - rewrite pairs_of_append_all, list_elem_of_filter. naive_solver.
  - naive_solver.
Qed.

Lemma process_partition_nonempty (t : string) (entry : Z * PartitionMetadata)
    (result : gmap Z (list (string * Z))) :
  (∀ b', result !! b' ≠ Some []) →
  ∀ b', process_partition min_rf t result entry !! b' ≠ Some [].
Proof.
  intros Hne. destruct entry as [p m]. unfold process_partition.
  case_bool_decide; [|done]. by apply append_all_nonempty.
Qed.

Lemma pairs_of_process_topic (t : string)
    (entries : list (Z * PartitionMetadata))
    (result : gmap Z (list (string * Z))) (b' : Z) (x : string * Z) :
  x ∈ pairs_of (foldl (process_partition min_rf t) result entries) b'
  ↔ x ∈ pairs_of result b'
    ∨ ∃ entry, entry ∈ entries ∧ x = (t, entry.1) ∧ flags min_rf entry.2 b'.
Proof.
  revert result. induction entries as [|e entries IH]; intros result.
  - cbn. setoid_rewrite elem_of_nil. naive_solver.
  - cbn [foldl]. rewrite IH, pairs_of_process_partition.
    setoid_rewrite elem_of_cons. naive_solver.
Qed.

Lemma process_topic_nonempty (t : string)
    (entries : list (Z * PartitionMetadata))
    (result : gmap Z (list (string * Z))) :
  (∀ b', result !! b' ≠ Some []) →
  ∀ b', foldl (process_partition min_rf t) result entries !! b' ≠ Some [].
Proof.
  revert result. induction entries as [|e entries IH]; intros result Hne;
    [done|].
  cbn [foldl]. apply IH. by apply process_partition_nonempty.
Qed.

Lemma pairs_of_process_items
    (items : list (string * gmap Z PartitionMetadata))
    (result : gmap Z (list (string * Z))) (b' : Z) (x : string * Z) :
  x ∈ pairs_of (process_items min_rf result items) b'
  ↔ x ∈ pairs_of result b'
    ∨ ∃ t partitions p m,
        (t, partitions) ∈ items ∧ partitions !! p = Some m
        ∧ x = (t, p) ∧ flags min_rf m b'.
Proof.
  revert result. induction items as [|[t ps] items IH]; intros result.
  - cbn. setoid_rewrite elem_of_nil. naive_solver.
  - unfold process_items in *. cbn [foldl]. rewrite IH.
    rewrite pairs_of_process_topic. setoid_rewrite elem_of_cons.
    split.
    + intros [[Hold|([p m] & Hin & -> & Hfl)]|(t' & ps' & p & m & Hin & Hrest)].
      * by left.
      * right. exists t, ps, p, m. apply elem_of_map_to_list in Hin.
        naive_solver.
      * right. exists t', ps', p, m. naive_solver.
    + intros [Hold|(t' & ps' & p & m & [Heq|Hin] & Hp & -> & Hfl)].
      * by left; left.
      * inversion Heq; subst t' ps'. left; right. exists (p, m).
        split; [by apply elem_of_map_to_list|done].
      * right. exists t', ps', p, m. naive_solver.
Qed.

Lemma process_items_nonempty
    (items : list (string * gmap Z PartitionMetadata))
    (result : gmap Z (list (string * Z))) :
  (∀ b', result !! b' ≠ Some []) →
  ∀ b', process_items min_rf result items !! b' ≠ Some [].
Proof.
  revert result. induction items as [|[t ps] items IH]; intros result Hne;
    [done|].
  unfold process_items in *. cbn [foldl]. apply IH.
  by apply process_topic_nonempty.
Qed.

End UnderReplicatedFacts.

(** C3. The result binds a broker to exactly the (topic, partition) pairs
    whose entry has fewer in-sync replicas than the threshold and lists the
    broker among its replicas but not among its in-sync replicas; an entry
    with at least that many in-sync replicas adds nothing; a broker with
    no such pair is absent, so the empty batch gives the empty mapping.
    For topic1 partition 0 with replicas (300, 500, 666) and in-sync
    replicas (500, 666), threshold 2 gives the empty mapping and threshold
    3 gives 300 bound to the one pair (topic1, 0). *)
Theorem process_topic_partition_metadata_spec
    (topic_partitions_metadata : gmap string (gmap Z PartitionMetadata))
    (min_replication_factor : Z) (broker : Z) (topic : string) (partition : Z) :
  let result :=
    _process_topic_partition_metadata topic_partitions_metadata
                                      min_replication_factor in
  ((topic, partition) ∈ pairs_of result broker
   ↔ under_replicated_at topic_partitions_metadata min_replication_factor
                         broker topic partition)
  ∧ (∀ partitions metadata,
       topic_partitions_metadata !! topic = Some partitions →
       partitions !! partition = Some metadata →
       min_replication_factor ≤ Z.of_nat (length (isr metadata)) →
       (topic, partition) ∉ pairs_of result broker)
  ∧ (result !! broker = None
     ↔ ∀ t p, ¬ under_replicated_at topic_partitions_metadata
                  min_replication_factor broker t p)
  ∧ _process_topic_partition_metadata ∅ min_replication_factor = ∅
  ∧ _process_topic_partition_metadata TOPIC1_PARTITION0 2 = ∅
  ∧ _process_topic_partition_metadata TOPIC1_PARTITION0 3
    = {[ 300 := [("topic1", 0)] ]}
  ∧ _process_topic_partition_metadata METADATA_RESPONSE 2 = ∅
  ∧ _process_topic_partition_metadata METADATA_RESPONSE 3
    = {[ 300 := [("topic1", 0)] ]}.
Proof.
  intros result.
  assert (∀ b x, x ∈ pairs_of result b
                 ↔ under_replicated_at topic_partitions_metadata
                     min_replication_factor b x.1 x.2) as Hmem.
  { intros b [t p]. subst result. unfold _process_topic_partition_metadata.
    change (foldl _ ∅ (map_to_list topic_partitions_metadata))
      with (process_items min_replication_factor ∅
              (map_to_list topic_partitions_metadata)).
    rewrite pairs_of_process_items. unfold under_replicated_at. cbn [fst snd].
    unfold pairs_of at 1. rewrite lookup_empty. cbn. rewrite elem_of_nil.
    split.
    - intros [[]|(t' & ps & p' & m & Hin & Hp & [= -> ->] & Hfl)].
      apply elem_of_map_to_list in Hin. by exists ps, m.
    - intros (ps & m & Ht & Hp & Hfl). right. exists t, ps, p, m.
      split; [by apply elem_of_map_to_list|done]. }
  assert (∀ b, result !! b ≠ Some []) as Hne.
  { subst result. unfold _process_topic_partition_metadata.
    change (foldl _ ∅ (map_to_list topic_partitions_metadata))
      with (process_items min_replication_factor ∅
              (map_to_list topic_partitions_metadata)).
    apply process_items_nonempty. intros b. by rewrite lookup_empty. }
  split; [apply (Hmem broker (topic, partition))|].
  split; [|split].
  - intros ps m Ht Hp Hge Hin.
    apply (Hmem broker (topic, partition)) in Hin
      as (ps' & m' & Ht' & Hp' & Hlt & _).
    cbn in *. simplify_eq. lia.
  - split.
    + intros Hnone t p Hur. apply (Hmem broker (t, p)) in Hur.
      unfold pairs_of in Hur. rewrite Hnone in Hur. by apply elem_of_nil in Hur.
    + intros Hno. destruct (result !! broker) as [[|[t p] l]|] eqn:Hr; [| |done].
      * by destruct (Hne broker).
      * destruct (Hno t p). apply (Hmem broker (t, p)).
        unfold pairs_of. rewrite Hr. apply list_elem_of_here.
  - repeat split; vm_compute; reflexivity.
Qed.

Lemma process_topic_partition_metadata_spec_witness :
  ("topic1", 1) ∈ pairs_of
    (_process_topic_partition_metadata METADATA_RESPONSE_FEW 2) 500
  ∧ (("topic1", 0) ∉ pairs_of
        (_process_topic_partition_metadata METADATA_RESPONSE_FEW 2) 500)
  ∧ _process_topic_partition_metadata METADATA_RESPONSE_FEW 2 !! 666 = None.
Proof.
  split; [|split].
  - apply (proj1 (process_topic_partition_metadata_spec
                    METADATA_RESPONSE_FEW 2 500 "topic1" 1)).
    eexists _, _. split; [reflexivity|]. split; [reflexivity|].
    split; [cbn; lia|]. split; cbn.
    + apply list_elem_of_further, list_elem_of_here.
    + intros Hin. apply list_elem_of_singleton in Hin. lia.
  - eapply (proj1 (proj2 (process_topic_partition_metadata_spec
                            METADATA_RESPONSE_FEW 2 500 "topic1" 0)));
      [reflexivity|reflexivity|cbn; lia].
  - reflexivity.
Defined.

(** The second scenario of the tests, each list of the result sorted as the
    test does. *)
Example process_topic_partition_metadata_few_for_one_broker :
  let result := _process_topic_partition_metadata METADATA_RESPONSE_FEW 2 in
  dom result = {[ 13; 500 ]}
  ∧ pairs_of result 13 ≡ₚ [("topic0", 0); ("topic1", 1)]
  ∧ pairs_of result 500 = [("topic1", 1)].
Proof.
  split; [by vm_compute|]. split; [|by vm_compute].
  vm_compute.
  first [reflexivity | apply perm_swap].
Qed.

(** ** Host list formatter *)

Section HostListFacts.

Lemma string_app_cons (c : Ascii.ascii) (s1 s2 : string) :
  String c s1 ++ s2 = String c (s1 ++ s2).
Proof. reflexivity. Qed.

Lemma string_app_empty_r (s1 : string) : s1 ++ "" = s1.
Proof.
  induction s1 as [|c s1 IH]; [done|]. by rewrite string_app_cons, IH.
Qed.

Lemma string_length_app (s1 s2 : string) :
  String.length (s1 ++ s2)
  = (String.length s1 + String.length s2)%nat.
Proof.
  induction s1 as [|c s1 IH]; [done|].
  rewrite string_app_cons. cbn [String.length]. by rewrite IH.
Qed.

Lemma concat_comma_separated (first : string) (others : list string) :
  String.concat "," (first :: others) = comma_separated first others.
Proof.
  unfold comma_separated. revert first.
  induction others as [|e others IH]; intros first.
  - cbn [String.concat foldr]. by rewrite string_app_empty_r.
  - change (String.concat "," (first :: e :: others))
      with (first ++ "," ++ String.concat "," (e :: others)).
    rewrite IH. cbn [foldr]. reflexivity.
Qed.

Lemma comma_separated_length (first : string) (others : list string) :
  String.length (comma_separated first others)
  = (sum_list_with String.length (first :: others) + length others)%nat.
Proof.
  unfold comma_separated. rewrite string_length_app. cbn [sum_list_with].
  induction others as [|e others IH]; cbn [foldr sum_list_with length].
  - cbn. lia.
  - rewrite !string_length_app. cbn [String.length]. lia.
Qed.

End HostListFacts.

(** C9. On a non-empty broker map the result lists every broker once, in
    some order, each rendered as host, a colon and the port, with exactly
    one comma between consecutive entries and nothing before the first or
    after the last: its length is the sum of the lengths of the entries
    plus one per entry but the first.  On the single broker 1000 with host
    hostname00 and port 1234 the result is hostname00:1234. *)
Theorem prepare_host_list_joined (brokers : gmap Z BrokerInfo) :
  (brokers ≠ ∅ →
   ∃ first others,
     first :: others ≡ₚ (map_to_list brokers).*2
     ∧ _prepare_host_list brokers
       = comma_separated (render_broker first) (render_broker <$> others)
     ∧ String.length (_prepare_host_list brokers)
       = (sum_list_with (fun broker =>
                           String.length (host broker) + 1
                           + String.length (pretty (port broker)))
                        (first :: others)
          + (size brokers - 1))%nat)
  ∧ _prepare_host_list BROKER_LIST_WITH_ONE = "hostname00:1234".
Proof.
  split; [|by vm_compute].
  intros Hne.
  destruct (map_to_list brokers) as [|[i first] items] eqn:Hitems.
  { by apply map_to_list_empty_iff in Hitems. }
  exists first, (items.*2). split; [done|].
  assert (_prepare_host_list brokers
          = comma_separated (render_broker first) (render_broker <$> items.*2))
    as Heq.
  { unfold _prepare_host_list. rewrite Hitems. cbn [map].
    rewrite concat_comma_separated. f_equal.
    clear. induction items as [|[j b] items IH]; [done|].
    cbn. by rewrite IH. }
  split; [exact Heq|].
  rewrite Heq, comma_separated_length.
  rewrite length_fmap.
  assert (size brokers = S (length items)) as ->.
  { by rewrite <- length_map_to_list, Hitems. }
  assert (∀ l : list BrokerInfo,
    sum_list_with String.length (render_broker <$> l)
    = sum_list_with (fun broker =>
                       String.length (host broker) + 1
                       + String.length (pretty (port broker)))%nat l) as Hsum.
  { induction l as [|b l IH]; [done|].
    cbn [fmap list_fmap sum_list_with]. rewrite IH. f_equal.
    unfold render_broker. rewrite !string_length_app. cbn. lia. }
  change (render_broker first :: (render_broker <$> items.*2))
    with (render_broker <$> (first :: items.*2)).
  rewrite Hsum, !length_fmap. lia.
Qed.

Lemma prepare_host_list_joined_witness :
  BROKER_LIST ≠ ∅
  ∧ ∃ first others,
      first :: others ≡ₚ (map_to_list BROKER_LIST).*2
      ∧ _prepare_host_list BROKER_LIST
        = comma_separated (render_broker first) (render_broker <$> others).
Proof.
  assert (BROKER_LIST ≠ ∅) as Hne.
  { intros Heq. apply (f_equal (fun m : gmap Z BrokerInfo => m !! 100)) in Heq.
    vm_compute in Heq. discriminate. }
  split; [exact Hne|].
  destruct (proj1 (prepare_host_list_joined BROKER_LIST) Hne)
    as (first & others & Hperm & Heq & _).
  by exists first, others.
Defined.

(** The three-broker list of the tests: every broker appears, rendered as
    in the expected string of [test__prepare_host_list]; the order of the
    entries is that of the enumeration of the map. *)
Example prepare_host_list_three_brokers :
  ∃ order, order ≡ₚ ["hostname2:1234"; "hostname0:1234"; "hostname1:1234"]
           ∧ _prepare_host_list BROKER_LIST = String.concat "," order.
Proof.
  exists ["hostname1:1234"; "hostname2:1234"; "hostname0:1234"]. split.
  - symmetry. etrans; [apply perm_skip, perm_swap|]. apply perm_swap.
  - by vm_compute.
Qed.

(** * Further properties of the code *)

(** ** Merge primitives: keys, bounds and composition *)

Section MergeAlgebra.

Lemma seen_app (l1 l2 : list (gmap Z Z)) (p : Z) :
  seen (l1 ++ l2)%list p = (seen l1 p ++ seen l2 p)%list.
Proof. unfold seen. apply omap_app. Qed.

Lemma foldr_max_head (a o : Z) (offsets : list Z) :
  foldr Z.max a (o :: offsets) = Z.max a (foldr Z.max o offsets).
Proof.
  induction offsets as [|x offsets IH]; cbn [foldr] in *; lia.
Qed.

Lemma foldr_max_app (a o : Z) (l l' : list Z) :
  foldr Z.max a (l ++ o :: l')%list
  = Z.max (foldr Z.max a l) (foldr Z.max o l').
Proof.
  induction l as [|x l IH].
  - cbn [app]. apply foldr_max_head.
  - cbn [app foldr]. rewrite IH. lia.
Qed.

Lemma max_offset_seen_app (l1 l2 : list (gmap Z Z)) (p : Z) :
  max_offset_seen (l1 ++ l2)%list p
  = union_with (fun a b => Some (Z.max a b))
               (max_offset_seen l1 p) (max_offset_seen l2 p).
Proof.
  unfold max_offset_seen. rewrite seen_app.
  destruct (seen l1 p) as [|o1 os1], (seen l2 p) as [|o2 os2]; cbn [app];
    try reflexivity.
  - by rewrite app_nil_r.
  - cbn. f_equal. apply foldr_max_app.
Qed.

(** The value of a partition after merging two batches of sources. *)
Lemma merge_app_lookup (l1 l2 : list (gmap Z Z)) (p : Z) :
  merge_partition_offsets (l1 ++ l2)%list !! p
  = union_with (fun a b => Some (Z.max a b))
               (merge_partition_offsets l1 !! p)
               (merge_partition_offsets l2 !! p).
Proof.
  rewrite !merge_partition_offsets_value, max_offset_seen_app.
  destruct (max_offset_seen l1 p), (max_offset_seen l2 p); cbn;
    try reflexivity.
  f_equal. lia.
Qed.

Lemma merge_single_lookup (m : gmap Z Z) (p : Z) :
  merge_partition_offsets [m] !! p = Z.max 0 <$> m !! p.
Proof.
  rewrite merge_partition_offsets_value. unfold max_offset_seen, seen.
  cbn [omap list_omap]. by destruct (m !! p).
Qed.

Lemma merge_value_nonneg (l : list (gmap Z Z)) (p v : Z) :
  merge_partition_offsets l !! p = Some v → 0 ≤ v.
Proof.
  rewrite merge_partition_offsets_value.
  destruct (max_offset_seen l p); cbn; [|done]. intros [= <-]. lia.
Qed.

Lemma merge_of_merge (l : list (gmap Z Z)) :
  merge_partition_offsets [merge_partition_offsets l]
  = merge_partition_offsets l.
Proof.
  apply map_eq. intros p. rewrite merge_single_lookup.
  destruct (merge_partition_offsets l !! p) as [v|] eqn:Hv; [|done].
  apply merge_value_nonneg in Hv. cbn. f_equal. lia.
Qed.

Lemma merge_covers_source (sources : list (gmap Z Z)) (source : gmap Z Z)
    (p o : Z) :
  source ∈ sources → source !! p = Some o →
  ∃ v, merge_partition_offsets sources !! p = Some v ∧ o ≤ v.
Proof.
  intros Hin Ho. rewrite merge_partition_offsets_value.
  destruct (max_offset_seen sources p) as [m|] eqn:Hm.
  - apply max_offset_seen_is_max in Hm as [_ Hup].
    assert (o ≤ m) by (apply Hup, elem_of_seen; eauto).
    exists (Z.max 0 m). split; [done|lia].
  - rewrite max_offset_seen_none in Hm. rewrite (Hm _ Hin) in Ho. done.
Qed.

End MergeAlgebra.

(** X1. The keys of the merged map are exactly the partitions that occur
    in some source: nothing is invented, nothing is dropped. *)
Theorem merge_partition_offsets_dom (sources : list (gmap Z Z)) :
  dom (merge_partition_offsets sources) = ⋃ (dom <$> sources).
Proof.
  apply set_eq. intros p. rewrite elem_of_dom, elem_of_union_list. split.
  - intros [v Hv]. rewrite merge_partition_offsets_value in Hv.
    destruct (max_offset_seen sources p) as [m|] eqn:Hm; [|done].
    apply max_offset_seen_is_max in Hm as [Hin _].
    apply elem_of_seen in Hin as (source & Hs & Hl).
    exists (dom source). split.
    + apply list_elem_of_fmap. by exists source.
    + apply elem_of_dom. by eexists.
  - intros (X & HX & Hp). apply list_elem_of_fmap in HX as (source & -> & Hs).
    apply elem_of_dom in Hp as [o Ho].
    destruct (merge_covers_source sources source p o Hs Ho) as (v & Hv & _).
    by eexists.
Qed.

(** X2. Merging composes: the merge of two batches of sources taken
    together is the partition-wise maximum of the merges of each batch, and
    merging the merges of any number of batches is merging all their
    sources at once. *)
Theorem merge_partition_offsets_batches (l1 l2 : list (gmap Z Z))
    (batches : list (list (gmap Z Z))) :
  merge_partition_offsets (l1 ++ l2)%list
  = union_with (fun a b => Some (Z.max a b))
               (merge_partition_offsets l1) (merge_partition_offsets l2)
  ∧ merge_partition_offsets (merge_partition_offsets <$> batches)
    = merge_partition_offsets (concat batches).
Proof.
  assert (∀ k1 k2 : list (gmap Z Z),
    merge_partition_offsets (k1 ++ k2)%list
    = union_with (fun a b => Some (Z.max a b))
                 (merge_partition_offsets k1) (merge_partition_offsets k2))
    as Happ.
  { intros k1 k2. apply map_eq. intros p.
    rewrite lookup_union_with. apply merge_app_lookup. }
  split; [apply Happ|].
  induction batches as [|b batches IH]; [reflexivity|].
  cbn [fmap list_fmap concat].
  trans (merge_partition_offsets
           ([merge_partition_offsets b]
            ++ (merge_partition_offsets <$> batches))%list); [reflexivity|].
  rewrite (Happ [merge_partition_offsets b]
                (merge_partition_offsets <$> batches)).
  by rewrite (Happ b (concat batches)), merge_of_merge, IH.
Qed.

(** X3. The merge never moves an offset backward: the merged value of a
    partition is at least every offset any source holds for it, and
    merging further sources can only keep or raise it. *)
Theorem merge_partition_offsets_never_backward
    (sources more : list (gmap Z Z)) (source : gmap Z Z) (p o v : Z) :
  (source ∈ sources → source !! p = Some o →
   ∃ v', merge_partition_offsets sources !! p = Some v' ∧ o ≤ v')
  ∧ (merge_partition_offsets sources !! p = Some v →
     ∃ v', merge_partition_offsets (sources ++ more)%list !! p = Some v'
           ∧ v ≤ v').
Proof.
  split; [apply merge_covers_source|].
  intros Hv. rewrite merge_app_lookup, Hv.
  destruct (merge_partition_offsets more !! p) as [u|]; cbn.
  - eexists. split; [done|lia].
  - eexists. split; [done|lia].
Qed.

Lemma merge_partition_offsets_never_backward_witness :
  let sources : list (gmap Z Z) := [ {[ 0 := 5 ]}; {[ 0 := 7; 1 := 3 ]} ] in
  {[ 0 := 5 ]} ∈ sources
  ∧ (∃ v', merge_partition_offsets sources !! 0 = Some v' ∧ 5 ≤ v')
  ∧ (∃ v', merge_partition_offsets (sources ++ [ {[ 0 := 2 ]} ])%list !! 0
           = Some v' ∧ 7 ≤ v').
Proof.
  intros sources.
  assert ({[ 0 := 5 ]} ∈ sources) as Hin by apply list_elem_of_here.
  destruct (merge_partition_offsets_never_backward sources [ {[ 0 := 2 ]} ]
              {[ 0 := 5 ]} 0 5 7) as [Hsrc Hmore].
  split; [exact Hin|]. split.
  - apply Hsrc; [exact Hin|reflexivity].
  - apply Hmore. reflexivity.
Defined.

(** X4. Merging a single source floors its offsets at 0 and changes
    nothing else; a source without negative offsets is returned as it is,
    and so is any result of a merge that is merged again. *)
Theorem merge_partition_offsets_single (m : gmap Z Z)
    (sources : list (gmap Z Z)) :
  merge_partition_offsets [m] = Z.max 0 <$> m
  ∧ ((∀ p o, m !! p = Some o → 0 ≤ o) → merge_partition_offsets [m] = m)
  ∧ merge_partition_offsets [merge_partition_offsets sources]
    = merge_partition_offsets sources.
Proof.
  split; [|split].
  - apply map_eq. intros p. by rewrite merge_single_lookup, lookup_fmap.
  - intros Hnn. apply map_eq. intros p. rewrite merge_single_lookup.
    destruct (m !! p) as [o|] eqn:Ho; [|done].
    specialize (Hnn _ _ Ho). cbn. f_equal. lia.
  - apply merge_of_merge.
Qed.

Lemma merge_partition_offsets_single_witness :
  (∀ p o, ({[ 0 := 5; 3 := 0 ]} : gmap Z Z) !! p = Some o → 0 ≤ o)
  ∧ merge_partition_offsets [ {[ 0 := 5; 3 := 0 ]} ] = {[ 0 := 5; 3 := 0 ]}.
Proof.
  assert (∀ p o, ({[ 0 := 5; 3 := 0 ]} : gmap Z Z) !! p = Some o → 0 ≤ o)
    as Hnn.
  { intros p o Ho. apply lookup_insert_Some in Ho as [[_ <-]|[_ Ho]]; [lia|].
    apply lookup_singleton_Some in Ho as [_ <-]. lia. }
  split; [exact Hnn|].
  exact (proj1 (proj2 (merge_partition_offsets_single _ [])) Hnn).
Defined.

(** ** [merge_offsets_metadata]: keys, order and bounds *)

Section MergeMetadataFacts.

Lemma merge_partition_offsets_perm (l l' : list (gmap Z Z)) :
  l ≡ₚ l' → merge_partition_offsets l = merge_partition_offsets l'.
Proof.
  intros Hperm. apply merge_partition_offsets_ext. intros p o.
  rewrite !elem_of_seen. by setoid_rewrite Hperm.
Qed.

Lemma merge_pair_lookup (a b : gmap Z Z) (p : Z) :
  merge_partition_offsets [a; b] !! p
  = union_with (fun x y => Some (Z.max x y))
               (Z.max 0 <$> a !! p) (Z.max 0 <$> b !! p).
Proof.
  change [a; b] with ([a] ++ [b])%list.
  by rewrite merge_app_lookup, !merge_single_lookup.
Qed.

(** The entry of a requested topic when two responses are merged. *)
Lemma merge_two_responses_at (topics : list string)
    (r1 r2 : gmap string (gmap Z Z)) (topic : string) (p : Z) :
  topic ∈ topics →
  offset_at (merge_offsets_metadata topics [r1; r2]) topic p
  = union_with (fun x y => Some (Z.max x y))
               (Z.max 0 <$> offset_at r1 topic p)
               (Z.max 0 <$> offset_at r2 topic p).
Proof.
  intros Hin. unfold offset_at.
  rewrite merge_offsets_metadata_lookup, decide_True by done.
  cbn [omap list_omap mbind option_bind].
  destruct (r1 !! topic) as [a|], (r2 !! topic) as [b|];
    cbn [omap list_omap mbind option_bind fmap option_fmap option_map].
  - apply merge_pair_lookup.
  - rewrite merge_single_lookup. by destruct (a !! p).
  - rewrite merge_single_lookup. by destruct (b !! p).
  - reflexivity.
Qed.

End MergeMetadataFacts.

Lemma merge_offsets_metadata_has_topic (topics : list string)
    (responses : list (gmap string (gmap Z Z))) (topic : string) :
  is_Some (merge_offsets_metadata topics responses !! topic) ↔ topic ∈ topics.
Proof.
  rewrite merge_offsets_metadata_lookup.
  destruct (decide (topic ∈ topics)) as [Hin|Hnin].
  - split; [done|]. intros _. by eexists.
  - split; [|done]. by intros [? ?].
Qed.

(** X5. The keys of the result of [merge_offsets_metadata] are exactly the
    requested topics: a topic that only the responses mention is dropped,
    and a topic listed twice appears once. *)
Theorem merge_offsets_metadata_dom (topics : list string)
    (responses : list (gmap string (gmap Z Z))) :
  dom (merge_offsets_metadata topics responses) = list_to_set topics.
Proof.
  apply set_eq. intros topic.
  rewrite elem_of_dom, elem_of_list_to_set.
  apply merge_offsets_metadata_has_topic.
Qed.

(** X6. The result of [merge_offsets_metadata] depends neither on the
    order of the responses nor on the order or repetition of the topics
    in the list. *)
Theorem merge_offsets_metadata_order (topics topics' : list string)
    (responses responses' : list (gmap string (gmap Z Z))) :
  (∀ topic, topic ∈ topics ↔ topic ∈ topics') →
  responses ≡ₚ responses' →
  merge_offsets_metadata topics responses
  = merge_offsets_metadata topics' responses'.
Proof.
  intros Htopics Hperm. apply map_eq. intros topic.
  rewrite !merge_offsets_metadata_lookup.
  destruct (decide (topic ∈ topics)) as [Hin|Hnin];
    destruct (decide (topic ∈ topics')) as [Hin'|Hnin']; try done.
  - f_equal. apply merge_partition_offsets_perm. by rewrite Hperm.
  - by apply Htopics in Hin.
  - by apply Htopics in Hin'.
Qed.

Lemma merge_offsets_metadata_order_witness :
  let zk : gmap string (gmap Z Z) := {[ "a" := {[ 0 := 5 ]} ]} in
  let kafka : gmap string (gmap Z Z) := {[ "a" := {[ 0 := 7 ]}; "b" := ∅ ]} in
  (∀ topic, topic ∈ ["a"; "b"; "a"] ↔ topic ∈ ["b"; "a"])
  ∧ [zk; kafka] ≡ₚ [kafka; zk]
  ∧ merge_offsets_metadata ["a"; "b"; "a"] [zk; kafka]
    = merge_offsets_metadata ["b"; "a"] [kafka; zk].
Proof.
  intros zk kafka.
  assert (∀ topic, topic ∈ ["a"; "b"; "a"] ↔ topic ∈ ["b"; "a"]) as Htopics.
  { intros topic. rewrite !elem_of_cons, !elem_of_nil. tauto. }
  assert ([zk; kafka] ≡ₚ [kafka; zk]) as Hperm by apply perm_swap.
  split; [exact Htopics|]. split; [exact Hperm|].
  exact (merge_offsets_metadata_order _ _ _ _ Htopics Hperm).
Defined.

(** X7. For a requested topic, the merged offset of a partition is at
    least the offset any response holds for it, and the partition is
    present in the result; a topic that was not requested has no entry
    whatever the responses hold. *)
Theorem merge_offsets_metadata_never_backward (topics : list string)
    (responses : list (gmap string (gmap Z Z)))
    (response : gmap string (gmap Z Z)) (topic : string) (p o : Z) :
  (topic ∈ topics → response ∈ responses →
   offset_at response topic p = Some o →
   ∃ v, offset_at (merge_offsets_metadata topics responses) topic p = Some v
        ∧ o ≤ v)
  ∧ (topic ∉ topics →
     merge_offsets_metadata topics responses !! topic = None).
Proof.
  split.
  - intros Hin Hr Ho. unfold offset_at in *.
    destruct (response !! topic) as [ps|] eqn:Hps; [|done]. cbn in Ho.
    rewrite merge_offsets_metadata_lookup, decide_True by done. cbn.
    apply (merge_covers_source _ ps); [|done].
    apply list_elem_of_omap. by exists response.
  - intros Hnin. by rewrite merge_offsets_metadata_lookup, decide_False.
Qed.

Lemma merge_offsets_metadata_never_backward_witness :
  let zk : gmap string (gmap Z Z) := {[ "a" := {[ 0 := 5 ]} ]} in
  let kafka : gmap string (gmap Z Z) := {[ "a" := {[ 0 := 7 ]}; "b" := ∅ ]} in
  "a" ∈ ["a"] ∧ zk ∈ [zk; kafka] ∧ offset_at zk "a" 0 = Some 5
  ∧ (∃ v, offset_at (merge_offsets_metadata ["a"] [zk; kafka]) "a" 0 = Some v
          ∧ 5 ≤ v)
  ∧ ("b" ∉ ["a"])
  ∧ merge_offsets_metadata ["a"] [zk; kafka] !! "b" = None.
Proof.
  intros zk kafka.
  assert ("a" ∈ ["a"]) as Ha by apply list_elem_of_here.
  assert (zk ∈ [zk; kafka]) as Hzk by apply list_elem_of_here.
  assert ("b" ∉ ["a"]) as Hb.
  { intros Hin. apply list_elem_of_singleton in Hin. discriminate. }
  split; [exact Ha|]. split; [exact Hzk|]. split; [reflexivity|].
  split; [|split; [exact Hb|]].
  - exact (proj1 (merge_offsets_metadata_never_backward ["a"] [zk; kafka] zk
                    "a" 0 5) Ha Hzk eq_refl).
  - exact (proj2 (merge_offsets_metadata_never_backward ["a"] [zk; kafka] zk
                    "b" 0 5) Hb).
Defined.

(** ** Dual mode: the merged offsets in terms of the two backends *)

(** X8. When both fetches of the dual mode succeed, the offset returned
    for a partition of a requested topic is the larger of the offsets of
    the two backends, each floored at 0; it is present as soon as one
    backend has it, and a backend that lacks it does not lower it. *)
Theorem dual_mode_takes_the_higher {W : Type} (env : Collaborators W)
    (group : string) (topics : list string) (raise_on_error : bool)
    (w w1 w2 : W) (log : list call) (zk kafka : gmap string (gmap Z Z)) :
  get_current_consumer_offsets env group topics false "zookeeper" w
  = (Ok zk, w1) →
  get_current_consumer_offsets env group topics false "kafka" w1
  = (Ok kafka, w2) →
  ∃ merged,
    (_get_current_offsets_dual env group topics raise_on_error (w, log)).1
    = Ok merged
    ∧ dom merged = list_to_set topics
    ∧ ∀ topic p, topic ∈ topics →
        offset_at merged topic p
        = union_with (fun x y => Some (Z.max x y))
                     (Z.max 0 <$> offset_at zk topic p)
                     (Z.max 0 <$> offset_at kafka topic p).
Proof.
  intros Hzk Hk.
  rewrite (dual_run_zk_ok env _ _ raise_on_error _ _ _ log _ _ Hzk Hk).
  eexists. split; [reflexivity|]. split.
  - apply set_eq. intros topic. rewrite elem_of_dom, elem_of_list_to_set.
    apply merge_offsets_metadata_has_topic.
  - intros topic p Hin. by apply merge_two_responses_at.
Qed.

Lemma dual_mode_takes_the_higher_witness :
  let env := scripted [] (Ok {[ "t" := {[ 0 := 5; 1 := 9 ]} ]})
                         (Ok {[ "t" := {[ 0 := 7 ]} ]}) (Ok ∅) in
  ∃ merged,
    (_get_current_offsets_dual env "g" ["t"] true (0%nat, [])).1 = Ok merged
    ∧ offset_at merged "t" 0 = Some 7
    ∧ offset_at merged "t" 1 = Some 9.
Proof.
  intros env.
  destruct (dual_mode_takes_the_higher env "g" ["t"] true 0%nat 1%nat 2%nat []
              {[ "t" := {[ 0 := 5; 1 := 9 ]} ]} {[ "t" := {[ 0 := 7 ]} ]}
              eq_refl eq_refl) as (merged & Hrun & _ & Hat).
  exists merged. split; [exact Hrun|].
  assert ("t" ∈ ["t"]) as Hin by apply list_elem_of_here.
  split.
  - rewrite (Hat "t" 0 Hin). reflexivity.
  - rewrite (Hat "t" 1 Hin). reflexivity.
Defined.

(** X9. When the kafka fetch of the dual mode fails with
    [GroupCoordinatorNotAvailableError], the result is the zookeeper
    offsets of the requested topics, floored at 0; a requested topic that
    zookeeper does not know is bound to the empty dictionary. *)
Theorem dual_mode_coordinator_unavailable {W : Type} (env : Collaborators W)
    (group : string) (topics : list string) (raise_on_error : bool)
    (w w1 w2 : W) (log : list call) (zk : gmap string (gmap Z Z)) :
  get_current_consumer_offsets env group topics false "zookeeper" w
  = (Ok zk, w1) →
  get_current_consumer_offsets env group topics false "kafka" w1
  = (Raise GroupCoordinatorNotAvailableError, w2) →
  ∃ merged,
    (_get_current_offsets_dual env group topics raise_on_error (w, log)).1
    = Ok merged
    ∧ ∀ topic, topic ∈ topics →
        merged !! topic = Some (Z.max 0 <$> default ∅ (zk !! topic)).
Proof.
  intros Hzk Hk.
  rewrite (dual_run_zk_ok env _ _ raise_on_error _ _ _ log _ _ Hzk Hk).
  eexists. split; [reflexivity|].
  intros topic Hin.
  rewrite merge_offsets_metadata_lookup, decide_True by done. f_equal.
  cbn [omap list_omap]. rewrite lookup_empty.
  destruct (zk !! topic) as [ps|]; cbn [omap list_omap from_option id].
  - apply map_eq. intros p. by rewrite merge_single_lookup, lookup_fmap.
  - by rewrite fmap_empty.
Qed.

Lemma dual_mode_coordinator_unavailable_witness :
  let env := scripted [] (Ok {[ "t" := {[ 0 := 5 ]} ]})
                         (Raise GroupCoordinatorNotAvailableError) (Ok ∅) in
  ∃ merged,
    (_get_current_offsets_dual env "g" ["t"; "u"] true (0%nat, [])).1
    = Ok merged
    ∧ merged !! "t" = Some {[ 0 := 5 ]}
    ∧ merged !! "u" = Some ∅.
Proof.
  intros env.
  destruct (dual_mode_coordinator_unavailable env "g" ["t"; "u"] true
              0%nat 1%nat 2%nat [] {[ "t" := {[ 0 := 5 ]} ]}
              eq_refl eq_refl) as (merged & Hrun & Hat).
  exists merged. split; [exact Hrun|]. split.
  - rewrite (Hat "t") by apply list_elem_of_here. reflexivity.
  - rewrite (Hat "u") by apply list_elem_of_further, list_elem_of_here.
    reflexivity.
Defined.

(** ** [get_consumer_offsets_metadata]: the pipeline and its failures *)

Section PipelineFacts.
Context {W : Type} (env : Collaborators W).

(** The refresher always makes a first call. *)
Lemma refresh_metadata_log (s : W * list call) :
  ∃ extra, (refresh_metadata env s).2.2
           = (s.2 ++ LoadMetadataForTopics :: extra)%list.
Proof.
  destruct s as [w log]. unfold refresh_metadata, try_except.
  destruct (load_metadata_for_topics env w) as [r1 w1] eqn:H1.
  rewrite (load_run env _ _ _ _ H1).
  destruct r1 as [[]|e]; [by exists []|].
  destruct e; try (by exists []).
  destruct (load_metadata_for_topics env w1) as [r2 w2] eqn:H2.
  rewrite (load_run env _ _ _ _ H2). cbn.
  exists [LoadMetadataForTopics]. by rewrite <- app_assoc.
Qed.

Lemma refresh_first_ok (w w1 : W) (log : list call) :
  load_metadata_for_topics env w = (Ok tt, w1) →
  refresh_metadata env (w, log)
  = (Ok tt, (w1, (log ++ [LoadMetadataForTopics])%list)).
Proof.
  intros H1. unfold refresh_metadata, try_except.
  by rewrite (load_run env _ _ _ _ H1).
Qed.

(** What follows a successful refresh. *)
Lemma after_refresh (group : string) (topics : list string) (roe : bool)
    (storage : string) (s s1 : W * list call) :
  refresh_metadata env s = (Ok tt, s1) →
  get_consumer_offsets_metadata env group topics roe storage s
  = (group_offsets <- get_current_offsets env group topics roe storage ;;
     watermarks <- call_get_topics_watermarks env topics roe ;;
     lift (assemble_items group_offsets watermarks
                          (map_to_list group_offsets) ∅)) s1.
Proof.
  intros Hr. unfold get_consumer_offsets_metadata.
  unfold bind at 1. by rewrite Hr.
Qed.

End PipelineFacts.

Section AssembleCases.
Variable group_offsets : gmap string (gmap Z Z).
Variable watermarks : gmap string (gmap Z PartitionOffsets).

Lemma snapshot_cases (topic : string) (partitions : gmap Z Z)
    (partition current : Z) :
  group_offsets !! topic = Some partitions →
  partitions !! partition = Some current →
  (∃ c by_partition,
      consumer_partition_offsets group_offsets watermarks topic partition
      = Ok c
      ∧ watermarks !! topic = Some by_partition
      ∧ is_Some (by_partition !! partition))
  ∨ (∃ k,
      consumer_partition_offsets group_offsets watermarks topic partition
      = Raise (KeyError k)
      ∧ missing_key group_offsets watermarks k).
Proof.
  intros Ht Hp. unfold consumer_partition_offsets, getitem.
  rewrite Ht. cbn [rbind]. rewrite Hp. cbn [rbind].
  destruct (watermarks !! topic) as [wt|] eqn:Hwt; cbn [rbind].
  - destruct (wt !! partition) as [m|] eqn:Hm; cbn [rbind].
    + left. eexists _, wt. split; [reflexivity|]. split; [done|by eexists].
    + right. exists (KeyInt partition). split; [reflexivity|].
      exists topic, partitions, partition.
      split; [done|]. split; [by eexists|]. right. split; [done|].
      by exists wt.
  - right. exists (KeyStr topic). split; [reflexivity|].
    exists topic, partitions, partition.
    split; [done|]. split; [by eexists|]. by left.
Qed.

Lemma snapshots_cases (topic : string) (partitions : gmap Z Z)
    (items : list (Z * Z)) :
  group_offsets !! topic = Some partitions →
  (∀ item, item ∈ items → partitions !! item.1 = Some item.2) →
  (∃ l, rmap (consumer_partition_offsets group_offsets watermarks topic)
             (map fst items) = Ok l
        ∧ ∀ item, item ∈ items →
            ∃ by_partition, watermarks !! topic = Some by_partition
                            ∧ is_Some (by_partition !! item.1))
  ∨ (∃ k, rmap (consumer_partition_offsets group_offsets watermarks topic)
               (map fst items) = Raise (KeyError k)
          ∧ missing_key group_offsets watermarks k).
Proof.
  intros Ht. induction items as [|[p cur] items IH]; intros Hitems.
  - left. exists []. split; [reflexivity|].
    intros item Hin. by apply elem_of_nil in Hin.
  - change (map fst ((p, cur) :: items)) with (p :: map fst items).
    cbn [rmap].
    destruct (snapshot_cases topic partitions p cur Ht)
      as [(c & wt & Hc & Hwt & Hsome)|(k & Hk & Hmiss)].
    { apply (Hitems (p, cur)), list_elem_of_here. }
    + rewrite Hc. cbn [rbind].
      destruct IH as [(l & Hl & Hcov)|(k & Hk & Hmiss)].
      { intros item Hin. apply Hitems. by apply list_elem_of_further. }
      * left. exists (c :: l). rewrite Hl. split; [reflexivity|].
        intros item Hin. apply elem_of_cons in Hin as [->|Hin]; [|by apply Hcov].
        by exists wt.
      * right. exists k. rewrite Hk. done.
    + right. exists k. rewrite Hk. done.
Qed.

Lemma assemble_items_cases (items : list (string * gmap Z Z))
    (acc : gmap string (list ConsumerPartitionOffsets)) :
  (∀ topic partitions, (topic, partitions) ∈ items →
                       group_offsets !! topic = Some partitions) →
  (∃ result,
      assemble_items group_offsets watermarks items acc = Ok result
      ∧ ∀ topic partitions partition,
          (topic, partitions) ∈ items → is_Some (partitions !! partition) →
          ∃ by_partition, watermarks !! topic = Some by_partition
                          ∧ is_Some (by_partition !! partition))
  ∨ (∃ k, assemble_items group_offsets watermarks items acc
          = Raise (KeyError k)
          ∧ missing_key group_offsets watermarks k).
Proof.
  revert acc. induction items as [|[t ps] items IH]; intros acc Hitems.
  - left. exists acc. split; [reflexivity|].
    intros topic partitions partition Hin. by apply elem_of_nil in Hin.
  - cbn [assemble_items].
    destruct (snapshots_cases t ps (map_to_list ps))
      as [(l & Hl & Hcov)|(k & Hk & Hmiss)].
    { apply Hitems, list_elem_of_here. }
    { intros [q cur] Hin. by apply elem_of_map_to_list in Hin. }
    + rewrite Hl. cbn [rbind].
      destruct (IH (<[t := l]> acc)) as [(result & Hres & Hcov')|(k & Hk & Hmiss)].
      { intros topic partitions Hin. apply Hitems.
        by apply list_elem_of_further. }
      * left. exists result. split; [exact Hres|].
        intros topic partitions partition Hin [cur Hcur].
        apply elem_of_cons in Hin as [Heq|Hin].
        -- inversion Heq; subst topic partitions.
           apply (Hcov (partition, cur)). by apply elem_of_map_to_list.
        -- apply (Hcov' topic partitions partition Hin). by eexists.
      * right. by exists k.
    + right. exists k. rewrite Hk. done.
Qed.

(** The loop either succeeds, and then every subscript found its key, or
    raises the [KeyError] of a key that is missing. *)
Lemma assemble_cases :
  (∃ result,
      assemble_items group_offsets watermarks (map_to_list group_offsets) ∅
      = Ok result
      ∧ covered group_offsets watermarks)
  ∨ (∃ k, assemble_items group_offsets watermarks
            (map_to_list group_offsets) ∅ = Raise (KeyError k)
          ∧ missing_key group_offsets watermarks k).
Proof.
  destruct (assemble_items_cases (map_to_list group_offsets) ∅)
    as [(result & Hres & Hcov)|Hraise].
  { intros topic partitions Hin. by apply elem_of_map_to_list in Hin. }
  - left. exists result. split; [exact Hres|].
    intros topic partitions partition Ht Hp.
    apply (Hcov topic partitions partition); [|done].
    by apply elem_of_map_to_list.
  - by right.
Qed.

Lemma missing_key_not_covered (k : pykey) :
  missing_key group_offsets watermarks k → ¬ covered group_offsets watermarks.
Proof.
  intros (t & ps & p & Ht & Hp & Hcase) Hcov.
  destruct (Hcov t ps p Ht Hp) as (wt & Hwt & [m Hm]).
  destruct Hcase as [[_ Hnone]|(_ & wt' & Hwt' & Hnone)]; congruence.
Qed.

End AssembleCases.

Section DispatchFacts.
Context {W : Type} (env : Collaborators W).

Lemma get_current_offsets_invalid (group : string) (topics : list string)
    (roe : bool) (storage : string) (s : W * list call) :
  storage ∉ ["zookeeper"; "kafka"; "dual"] →
  get_current_offsets env group topics roe storage s
  = (Raise (InvalidOffsetStorageError storage), s).
Proof.
  intros Hout. unfold get_current_offsets.
  rewrite bool_decide_eq_false_2.
  - rewrite bool_decide_eq_false_2; [done|].
    intros ->. apply Hout. do 2 apply list_elem_of_further.
    apply list_elem_of_here.
  - intros Hin. apply Hout.
    apply elem_of_cons in Hin as [->|Hin]; [apply list_elem_of_here|].
    apply list_elem_of_further. by apply elem_of_cons in Hin as [->|Hin];
      [apply list_elem_of_here|apply elem_of_nil in Hin].
Qed.

Lemma get_current_offsets_single (group : string) (topics : list string)
    (roe : bool) (storage : string) :
  storage ∈ ["zookeeper"; "kafka"] →
  get_current_offsets env group topics roe storage
  = call_get_current_consumer_offsets env group topics roe storage.
Proof.
  intros Hin. unfold get_current_offsets.
  by rewrite bool_decide_eq_true_2.
Qed.

Lemma get_current_offsets_dual (group : string) (topics : list string)
    (roe : bool) :
  get_current_offsets env group topics roe "dual"
  = _get_current_offsets_dual env group topics roe.
Proof. reflexivity. Qed.

End DispatchFacts.

(** X10. Once the refresh, the reconciliation and the watermark fetch have
    succeeded, [get_consumer_offsets_metadata] returns a result exactly
    when every (topic, partition) of the reconciled offsets has a
    watermark entry; otherwise it raises a [KeyError] whose key is a topic
    or a partition that the watermarks miss.  No further call is made in
    either case. *)
Theorem get_consumer_offsets_metadata_key_error {W : Type}
    (env : Collaborators W) (group : string) (topics : list string)
    (raise_on_error : bool) (offset_storage : string)
    (s s1 s2 s3 : W * list call)
    (group_offsets : gmap string (gmap Z Z))
    (watermarks : gmap string (gmap Z PartitionOffsets)) :
  refresh_metadata env s = (Ok tt, s1) →
  get_current_offsets env group topics raise_on_error offset_storage s1
  = (Ok group_offsets, s2) →
  call_get_topics_watermarks env topics raise_on_error s2
  = (Ok watermarks, s3) →
  let run := get_consumer_offsets_metadata env group topics raise_on_error
               offset_storage s in
  run.2 = s3
  ∧ ((∃ result, run.1 = Ok result) ↔ covered group_offsets watermarks)
  ∧ (¬ covered group_offsets watermarks →
     ∃ k, run.1 = Raise (KeyError k)
          ∧ missing_key group_offsets watermarks k).
Proof.
  intros Hrefresh Hoffsets Hwm run.
  assert (run = (assemble_items group_offsets watermarks
                   (map_to_list group_offsets) ∅, s3)) as ->.
  { subst run. rewrite (after_refresh env _ _ _ _ _ _ Hrefresh).
    unfold bind, lift. by rewrite Hoffsets, Hwm. }
  cbn [fst snd]. split; [done|].
  destruct (assemble_cases group_offsets watermarks)
    as [(result & Hres & Hcov)|(k & Hk & Hmiss)].
  - rewrite Hres. split; [split; [done|by eexists]|]. by intros [].
  - rewrite Hk. split.
    + split; [by intros [? ?]|].
      intros Hcov. by destruct (missing_key_not_covered _ _ _ Hmiss).
    + intros _. by exists k.
Qed.

Lemma get_consumer_offsets_metadata_key_error_witness :
  let offsets : gmap string (gmap Z Z) := {[ "t" := {[ 0 := 5; 1 := 6 ]} ]} in
  let marks : gmap string (gmap Z PartitionOffsets) :=
    {[ "t" := {[ 0 := {| highmark := 10; lowmark := 1 |} ]} ]} in
  let env := scripted [] (Ok ∅) (Ok offsets) (Ok marks) in
  ¬ covered offsets marks
  ∧ ∃ k, (get_consumer_offsets_metadata env "g" ["t"] true "kafka"
            (0%nat, [])).1 = Raise (KeyError k)
         ∧ missing_key offsets marks k.
Proof.
  intros offsets marks env.
  assert (¬ covered offsets marks) as Hnot.
  { intros Hcov. destruct (Hcov "t" {[ 0 := 5; 1 := 6 ]} 1) as (wt & Hwt & Hm).
    - reflexivity.
    - by eexists.
    - subst marks. apply lookup_singleton_Some in Hwt as [_ <-].
      destruct Hm as [m Hm]. vm_compute in Hm. discriminate. }
  split; [exact Hnot|].
  refine (proj2 (proj2 (get_consumer_offsets_metadata_key_error env "g" ["t"]
            true "kafka" (0%nat, []) (1%nat, [LoadMetadataForTopics])
            (2%nat, [LoadMetadataForTopics;
                     GetCurrentConsumerOffsets "g" ["t"] true "kafka"])
            (3%nat, [LoadMetadataForTopics;
                     GetCurrentConsumerOffsets "g" ["t"] true "kafka";
                     GetTopicsWatermarks ["t"] true])
            offsets marks eq_refl eq_refl eq_refl)) Hnot).
Defined.

(** X11. With a single backend and a first refresh that succeeds, the
    calls are made in this order: the metadata refresh, the offset fetch
    with the caller's topics, flag and storage, the watermark fetch with
    the same topics and flag.  A failure of the offset fetch is the
    outcome and the watermarks are not fetched; a failure of the watermark
    fetch is the outcome. *)
Theorem single_backend_pipeline {W : Type} (env : Collaborators W)
    (group : string) (topics : list string) (raise_on_error : bool)
    (offset_storage : string) (w w1 w2 w3 : W) (log : list call)
    (rf : outcome (gmap string (gmap Z Z)))
    (rw : outcome (gmap string (gmap Z PartitionOffsets))) :
  offset_storage ∈ ["zookeeper"; "kafka"] →
  load_metadata_for_topics env w = (Ok tt, w1) →
  get_current_consumer_offsets env group topics raise_on_error
                               offset_storage w1 = (rf, w2) →
  get_topics_watermarks env topics raise_on_error w2 = (rw, w3) →
  let run := get_consumer_offsets_metadata env group topics raise_on_error
               offset_storage (w, log) in
  let fetch :=
    GetCurrentConsumerOffsets group topics raise_on_error offset_storage in
  (∀ e, rf = Raise e →
        run = (Raise e, (w2, (log ++ [LoadMetadataForTopics; fetch])%list)))
  ∧ (∀ group_offsets, rf = Ok group_offsets →
       run.2 = (w3, (log ++ [LoadMetadataForTopics; fetch;
                             GetTopicsWatermarks topics raise_on_error])%list)
       ∧ (∀ e, rw = Raise e → run.1 = Raise e)).
Proof.
  intros Hin Hload Hfetch Hwm run fetch. subst run.
  rewrite (after_refresh env _ _ _ _ _ _ (refresh_first_ok env _ _ log Hload)).
  rewrite (get_current_offsets_single env _ _ _ _ Hin).
  unfold bind. rewrite (fetch_run env _ _ _ _ _ _ _ _ Hfetch).
  rewrite <- app_assoc. cbn [app]. split.
  - by intros e ->.
  - intros group_offsets ->.
    rewrite (watermarks_run env _ _ _ _ _ _ Hwm).
    rewrite <- app_assoc. cbn [app].
    destruct rw as [watermarks|e]; cbn [fst snd lift]; split; try done.
    by intros e' [= <-].
Qed.

Lemma single_backend_pipeline_witness :
  let env := scripted [] (Raise (OtherError "ConnectionError"))
                      (Ok {[ "t" := ∅ ]}) (Raise (OtherError "Timeout")) in
  "kafka" ∈ ["zookeeper"; "kafka"]
  ∧ (get_consumer_offsets_metadata env "g" ["t"] false "kafka" (0%nat, [])).1
    = Raise (OtherError "Timeout")
  ∧ get_consumer_offsets_metadata env "g" ["t"] false "zookeeper" (0%nat, [])
    = (Raise (OtherError "ConnectionError"),
       (2%nat, [LoadMetadataForTopics;
                GetCurrentConsumerOffsets "g" ["t"] false "zookeeper"])).
Proof.
  intros env.
  assert ("kafka" ∈ ["zookeeper"; "kafka"]) as Hk
    by apply list_elem_of_further, list_elem_of_here.
  assert ("zookeeper" ∈ ["zookeeper"; "kafka"]) as Hz
    by apply list_elem_of_here.
  split; [exact Hk|]. split.
  - destruct (single_backend_pipeline env "g" ["t"] false "kafka"
                0%nat 1%nat 2%nat 3%nat [] (Ok {[ "t" := ∅ ]})
                (Raise (OtherError "Timeout")) Hk eq_refl eq_refl eq_refl)
      as [_ Hok].
    exact (proj2 (Hok _ eq_refl) _ eq_refl).
  - destruct (single_backend_pipeline env "g" ["t"] false "zookeeper"
                0%nat 1%nat 2%nat 3%nat []
                (Raise (OtherError "ConnectionError"))
                (Raise (OtherError "Timeout")) Hz eq_refl eq_refl eq_refl)
      as [Hraise _].
    exact (Hraise _ eq_refl).
Defined.

(** X12. In dual mode the caller's [raise_on_error] reaches the watermark
    fetch only: after a first refresh that succeeds, the two offset
    fetches are made with [False] and, when the zookeeper fetch succeeds
    and the kafka fetch succeeds or fails with
    [GroupCoordinatorNotAvailableError], the watermarks are fetched with
    the caller's flag.  Any other failure of the kafka fetch is the
    outcome, and the watermarks are not fetched. *)
Theorem dual_pipeline {W : Type} (env : Collaborators W)
    (group : string) (topics : list string) (raise_on_error : bool)
    (w w1 w2 w3 w4 : W) (log : list call)
    (zk : gmap string (gmap Z Z)) (rk : outcome (gmap string (gmap Z Z)))
    (rw : outcome (gmap string (gmap Z PartitionOffsets))) :
  load_metadata_for_topics env w = (Ok tt, w1) →
  get_current_consumer_offsets env group topics false "zookeeper" w1
  = (Ok zk, w2) →
  get_current_consumer_offsets env group topics false "kafka" w2 = (rk, w3) →
  get_topics_watermarks env topics raise_on_error w3 = (rw, w4) →
  let run := get_consumer_offsets_metadata env group topics raise_on_error
               "dual" (w, log) in
  let fetches := [GetCurrentConsumerOffsets group topics false "zookeeper";
                  GetCurrentConsumerOffsets group topics false "kafka"] in
  (∀ e, rk = Raise e → e ≠ GroupCoordinatorNotAvailableError →
        run = (Raise e,
               (w3, (log ++ LoadMetadataForTopics :: fetches)%list)))
  ∧ ((rk = Raise GroupCoordinatorNotAvailableError ∨ ∃ kafka, rk = Ok kafka) →
     run.2 = (w4, (log ++ LoadMetadataForTopics :: fetches
                       ++ [GetTopicsWatermarks topics raise_on_error])%list)).
Proof.
  intros Hload Hzk Hk Hwm run fetches. subst run fetches.
  rewrite (after_refresh env _ _ _ _ _ _ (refresh_first_ok env _ _ log Hload)).
  rewrite get_current_offsets_dual. split.
  - intros e -> Hne. unfold bind at 1.
    rewrite (dual_run_zk_ok env _ _ raise_on_error _ _ _ _ _ _ Hzk Hk).
    rewrite <- app_assoc. cbn [app]. by destruct e.
  - intros [->|[kafka ->]]; unfold bind at 1;
      rewrite (dual_run_zk_ok env _ _ raise_on_error _ _ _ _ _ _ Hzk Hk);
      cbv beta iota; unfold bind;
      rewrite (watermarks_run env _ _ _ _ _ _ Hwm);
      rewrite <- !app_assoc; cbn [app]; by destruct rw.
Qed.

Lemma dual_pipeline_witness :
  let env := scripted [] (Ok {[ "t" := {[ 0 := 5 ]} ]})
                      (Raise GroupCoordinatorNotAvailableError)
                      (Ok {[ "t" := {[ 0 := {| highmark := 9; lowmark := 2 |} ]} ]}) in
  get_consumer_offsets_metadata env "g" ["t"] true "dual" (0%nat, [])
  = (Ok {[ "t" := [ {| cpo_topic := "t"; cpo_partition := 0; cpo_current := 5;
                       cpo_highmark := 9; cpo_lowmark := 2 |} ] ]},
     (4%nat, [LoadMetadataForTopics;
              GetCurrentConsumerOffsets "g" ["t"] false "zookeeper";
              GetCurrentConsumerOffsets "g" ["t"] false "kafka";
              GetTopicsWatermarks ["t"] true])).
Proof.
  intros env.
  pose proof (proj2 (dual_pipeline env "g" ["t"] true
                       0%nat 1%nat 2%nat 3%nat 4%nat []
                       {[ "t" := {[ 0 := 5 ]} ]}
                       (Raise GroupCoordinatorNotAvailableError)
                       (Ok {[ "t" := {[ 0 := {| highmark := 9; lowmark := 2 |} ]} ]})
                       eq_refl eq_refl eq_refl eq_refl)
                    (or_introl eq_refl)) as Hstate.
  apply injective_projections; [reflexivity|exact Hstate].
Defined.

(** X13. An unknown storage mode is detected by
    [get_consumer_offsets_metadata] only after the metadata refresh: at
    least one [load_metadata_for_topics] call is made first, no fetch
    follows, and [InvalidOffsetStorageError] is raised when the refresh
    succeeded; when the refresh failed, its failure is the outcome
    instead. *)
Theorem invalid_storage_detected_after_refresh {W : Type}
    (env : Collaborators W) (group : string) (topics : list string)
    (raise_on_error : bool) (offset_storage : string) (s : W * list call) :
  offset_storage ∉ ["zookeeper"; "kafka"; "dual"] →
  let refreshed := refresh_metadata env s in
  let run := get_consumer_offsets_metadata env group topics raise_on_error
               offset_storage s in
  run.2 = refreshed.2
  ∧ (∃ extra, run.2.2 = (s.2 ++ LoadMetadataForTopics :: extra)%list)
  ∧ (refreshed.1 = Ok tt →
     run.1 = Raise (InvalidOffsetStorageError offset_storage))
  ∧ (∀ e, refreshed.1 = Raise e → run.1 = Raise e).
Proof.
  intros Hout refreshed run.
  assert (run = (match refreshed.1 with
                 | Ok _ => Raise (InvalidOffsetStorageError offset_storage)
                 | Raise e => Raise e
                 end, refreshed.2)) as Hrun.
  { subst run refreshed. unfold get_consumer_offsets_metadata.
    unfold bind at 1.
    destruct (refresh_metadata env s) as [[[]|e] s1]; [|done].
    unfold bind. by rewrite (get_current_offsets_invalid env _ _ _ _ _ Hout). }
  rewrite Hrun. cbn [fst snd]. split; [done|]. split.
  - apply refresh_metadata_log.
  - split; [by intros ->|by intros e ->].
Qed.

Lemma invalid_storage_detected_after_refresh_witness :
  let env := scripted [Raise KafkaUnavailableError; Ok tt] (Ok ∅) (Ok ∅) (Ok ∅) in
  ("Kafka" ∉ ["zookeeper"; "kafka"; "dual"])
  ∧ get_consumer_offsets_metadata env "g" ["t"] true "Kafka" (0%nat, [])
    = (Raise (InvalidOffsetStorageError "Kafka"),
       (2%nat, [LoadMetadataForTopics; LoadMetadataForTopics])).
Proof.
  intros env.
  assert ("Kafka" ∉ ["zookeeper"; "kafka"; "dual"]) as Hout.
  { rewrite !not_elem_of_cons. repeat split; try discriminate.
    apply not_elem_of_nil. }
  split; [exact Hout|].
  destruct (invalid_storage_detected_after_refresh env "g" ["t"] true "Kafka"
              (0%nat, []) Hout) as (Hstate & _ & Hok & _).
  apply injective_projections; [exact (Hok eq_refl)|exact Hstate].
Defined.

(** ** Watermark entry points *)

Section WatermarkFacts.
Context {W : Type} (client : Client W).
Context (re_search : string → string → outcome bool).
Context (raise_on_error_default : bool).

Lemma bind_ret {A} (m : M W A) (s : W * list call) :
  (x <- m ;; ret x) s = m s.
Proof. unfold bind, ret. by destruct (m s) as [[a|e] s']. Qed.

(** The topics selected by the loop when the search never raises. *)
Lemma topics_matching_filter (topic_regex : string) (found : string → bool)
    (topics acc : list string) :
  (∀ topic, topic ∈ topics → re_search topic_regex topic = Ok (found topic)) →
  topics_matching re_search topic_regex topics acc
  = Ok (acc ++ filter (fun topic => found topic = true) topics)%list.
Proof.
  revert acc. induction topics as [|t topics IH]; intros acc Hfound.
  - cbn. by rewrite app_nil_r.
  - cbn [topics_matching]. rewrite (Hfound t) by apply list_elem_of_here.
    cbn [rbind]. rewrite IH.
    2:{ intros topic Hin. apply Hfound. by apply list_elem_of_further. }
    rewrite filter_cons. destruct (found t) eqn:Hft.
    + rewrite decide_True by done. by rewrite <- app_assoc.
    + rewrite decide_False by done. done.
Qed.

(** The run of [get_watermark_for_regex] after a successful refresh. *)
Lemma regex_run_after_refresh (topic_regex : string) (s : W * list call)
    (w1 : W) (log1 : list call) :
  refresh_metadata (collaborators client) s = (Ok tt, (w1, log1)) →
  get_watermark_for_regex client re_search raise_on_error_default topic_regex s
  = match topics_matching re_search topic_regex (topic_partitions client w1) []
    with
    | Ok selected =>
        call_get_topics_watermarks (collaborators client) selected
                                   raise_on_error_default (w1, log1)
    | Raise e => (Raise e, (w1, log1))
    end.
Proof.
  intros Hr. unfold get_watermark_for_regex.
  unfold bind at 1. rewrite Hr.
  unfold bind at 1. unfold read_topic_partitions. cbn [fst].
  unfold bind at 1. unfold lift.
  destruct (topics_matching re_search topic_regex (topic_partitions client w1) [])
    as [selected|e]; [|done].
  apply bind_ret.
Qed.

Lemma topic_run_after_refresh (topic : string) (s : W * list call)
    (w1 : W) (log1 : list call) :
  refresh_metadata (collaborators client) s = (Ok tt, (w1, log1)) →
  get_watermark_for_topic client raise_on_error_default topic s
  = call_get_topics_watermarks (collaborators client) [topic]
                               raise_on_error_default (w1, log1).
Proof.
  intros Hr. unfold get_watermark_for_topic.
  unfold bind at 1. rewrite Hr. apply bind_ret.
Qed.

Lemma watermark_entry_refresh_fails (topic_regex topic : string)
    (s s1 : W * list call) (e : exn) :
  refresh_metadata (collaborators client) s = (Raise e, s1) →
  get_watermark_for_regex client re_search raise_on_error_default topic_regex s
  = (Raise e, s1)
  ∧ get_watermark_for_topic client raise_on_error_default topic s
    = (Raise e, s1).
Proof.
  intros Hr. unfold get_watermark_for_regex, get_watermark_for_topic.
  unfold bind at 1. unfold bind at 4. by rewrite Hr.
Qed.

End WatermarkFacts.

(** X14. After a successful refresh, [get_watermark_for_regex] fetches the
    watermarks of exactly the topics of the client's topic directory on
    which the search succeeds, in directory order, in one call, and
    returns the outcome of that call; no topic outside the directory is
    ever asked for. *)
Theorem get_watermark_for_regex_selects {W : Type} (client : Client W)
    (re_search : string → string → outcome bool)
    (raise_on_error_default : bool) (topic_regex : string)
    (found : string → bool) (s : W * list call) (w1 : W) (log1 : list call) :
  refresh_metadata (collaborators client) s = (Ok tt, (w1, log1)) →
  (∀ topic, topic ∈ topic_partitions client w1 →
            re_search topic_regex topic = Ok (found topic)) →
  let selected :=
    filter (fun topic => found topic = true) (topic_partitions client w1) in
  let fetched :=
    get_topics_watermarks (collaborators client) selected
                          raise_on_error_default w1 in
  get_watermark_for_regex client re_search raise_on_error_default topic_regex s
  = (fetched.1,
     (fetched.2,
      (log1 ++ [GetTopicsWatermarks selected raise_on_error_default])%list))
  ∧ ∀ topic, topic ∈ selected →
             topic ∈ topic_partitions client w1 ∧ found topic = true.
Proof.
  intros Hr Hfound selected fetched. split.
  - rewrite (regex_run_after_refresh client _ _ _ _ _ _ Hr).
    rewrite (topics_matching_filter _ _ found _ [] Hfound). cbn [app].
    fold selected. apply watermarks_run. subst fetched.
    by destruct (get_topics_watermarks _ _ _ _).
  - intros topic Hin. apply list_elem_of_filter in Hin. tauto.
Qed.

Lemma get_watermark_for_regex_selects_witness :
  let client := scripted_client [] ["alpha"; "beta"; "alps"] in
  get_watermark_for_regex client prefix_search true "al" (0%nat, [])
  = (Ok {[ "alpha" := {[ 0 := {| highmark := 10; lowmark := 1 |} ]};
           "alps" := {[ 0 := {| highmark := 10; lowmark := 1 |} ]} ]},
     (2%nat, [LoadMetadataForTopics;
              GetTopicsWatermarks ["alpha"; "alps"] true])).
Proof.
  intros client.
  refine (proj1 (get_watermark_for_regex_selects client prefix_search true
                   "al" (String.prefix "al") (0%nat, []) 1%nat
                   [LoadMetadataForTopics] eq_refl _)).
  intros topic _. reflexivity.
Defined.

(** X15. Edge cases of the search in [get_watermark_for_regex], after a
    successful refresh.  With an empty topic directory the search is never
    run, so even a pattern that does not compile raises nothing and the
    watermarks of no topic are fetched.  When the search raises on the
    first topic of the directory, that failure is the outcome and no
    watermark is fetched. *)
Theorem get_watermark_for_regex_search_edges {W : Type} (client : Client W)
    (re_search : string → string → outcome bool)
    (raise_on_error_default : bool) (topic_regex : string)
    (s : W * list call) (w1 : W) (log1 : list call) :
  refresh_metadata (collaborators client) s = (Ok tt, (w1, log1)) →
  let run := get_watermark_for_regex client re_search raise_on_error_default
               topic_regex s in
  (topic_partitions client w1 = [] →
   run.2.2 = (log1 ++ [GetTopicsWatermarks [] raise_on_error_default])%list
   ∧ run.1 = (get_topics_watermarks (collaborators client) []
                                    raise_on_error_default w1).1)
  ∧ (∀ topic rest e,
       topic_partitions client w1 = topic :: rest →
       re_search topic_regex topic = Raise e →
       run = (Raise e, (w1, log1))).
Proof.
  intros Hr run. subst run.
  rewrite (regex_run_after_refresh client _ _ _ _ _ _ Hr). split.
  - intros ->. cbn [topics_matching].
    destruct (get_topics_watermarks (collaborators client) []
                raise_on_error_default w1) as [r w2] eqn:Hf.
    by rewrite (watermarks_run _ _ _ _ _ _ _ Hf).
  - intros topic rest e -> Hraise. cbn [topics_matching].
    by rewrite Hraise.
Qed.

Lemma get_watermark_for_regex_search_edges_witness :
  get_watermark_for_regex (scripted_client [] []) prefix_search true "("
                          (0%nat, [])
  = (Ok ∅, (2%nat, [LoadMetadataForTopics; GetTopicsWatermarks [] true]))
  ∧ get_watermark_for_regex (scripted_client [] ["alpha"]) prefix_search true
                            "(" (0%nat, [])
    = (Raise (OtherError "re.error"), (1%nat, [LoadMetadataForTopics])).
Proof.
  split.
  - destruct (get_watermark_for_regex_search_edges (scripted_client [] [])
                prefix_search true "(" (0%nat, []) 1%nat
                [LoadMetadataForTopics] eq_refl) as [Hempty _].
    destruct (Hempty eq_refl) as [Hlog Hout].
    apply injective_projections; [exact Hout|].
    apply injective_projections; [reflexivity|exact Hlog].
  - destruct (get_watermark_for_regex_search_edges
                (scripted_client [] ["alpha"])
                prefix_search true "(" (0%nat, []) 1%nat
                [LoadMetadataForTopics] eq_refl) as [_ Hraise].
    exact (Hraise "alpha" [] _ eq_refl eq_refl).
Defined.

(** X16. [get_watermark_for_topic] asks for its topic whether or not the
    client's directory knows it, and [get_watermark_for_regex] agrees with
    it whenever the search selects that single topic from the directory:
    both make the same calls and have the same outcome, also when the
    refresh fails. *)
Theorem watermark_entry_points_agree {W : Type} (client : Client W)
    (re_search : string → string → outcome bool)
    (raise_on_error_default : bool) (topic_regex topic : string)
    (found : string → bool) (s : W * list call) :
  (∀ w1 log1,
     refresh_metadata (collaborators client) s = (Ok tt, (w1, log1)) →
     (∀ t, t ∈ topic_partitions client w1 →
           re_search topic_regex t = Ok (found t))
     ∧ filter (fun t => found t = true) (topic_partitions client w1)
       = [topic]) →
  get_watermark_for_regex client re_search raise_on_error_default topic_regex s
  = get_watermark_for_topic client raise_on_error_default topic s.
Proof.
  intros Hsel.
  destruct (refresh_metadata (collaborators client) s) as [[[]|e] [w1 log1]]
    eqn:Hr.
  - destruct (Hsel w1 log1 eq_refl) as [Hfound Hone].
    rewrite (regex_run_after_refresh client _ _ _ _ _ _ Hr).
    rewrite (topic_run_after_refresh client _ _ _ _ _ Hr).
    rewrite (topics_matching_filter _ _ found _ [] Hfound). cbn [app].
    by rewrite Hone.
  - destruct (watermark_entry_refresh_fails client re_search
                raise_on_error_default topic_regex topic _ _ _ Hr)
      as [-> ->]. done.
Qed.

Lemma watermark_entry_points_agree_witness :
  let client := scripted_client [] ["alpha"; "beta"] in
  get_watermark_for_regex client prefix_search false "be" (0%nat, [])
  = get_watermark_for_topic client false "beta" (0%nat, []).
Proof.
  intros client.
  apply (watermark_entry_points_agree client prefix_search false "be" "beta"
           (String.prefix "be")).
  intros w1 log1 _. split; [|reflexivity].
  intros t _. reflexivity.
Defined.

(** ** Dual mode through the whole pipeline *)


